(** * LegalEagle review session: a shallow embedding of the review
      interface (src/components/ReviewInterface.tsx), of the analyzer
      service (src/services/geminiService.ts) and of the shared types.

    JavaScript strings are sequences of code units; they are modelled as
    lists of characters so that substring arithmetic ([firstn], [skipn],
    [++]) is the one the ECMAScript algorithms are written with. *)

From Equations Require Import Equations.
From Stdlib Require Import List Ascii ZArith Lia Bool Arith.
From Stdlib Require String.
From Stdlib Require Import DecimalString DecimalNat.
Import ListNotations.
Import String.StringSyntax.
Delimit Scope string_scope with string.

Set Implicit Arguments.

(* ===================================================================== *)
(** ** JavaScript string primitives used by the component *)
(* ===================================================================== *)

Module JS.

Definition str := list ascii.

(** String literals of the source are written with [lit]. *)
Definition lit (s : String.string) : str := String.list_ascii_of_string s.
Arguments lit s%_string.

Definition str_eqb (a b : str) : bool :=
  if list_eq_dec ascii_dec a b then true else false.

(** [startsWith p s]: the code units of [p] are the first ones of [s]. *)
Fixpoint startsWith (p s : str) : bool :=
  match p, s with
  | [], _ => true
  | _ :: _, [] => false
  | a :: p', b :: s' => Ascii.eqb a b && startsWith p' s'
  end.

(** StringIndexOf(s, pat, 0): the smallest position at which [pat]
    occurs in [s], or not-found. *)
Fixpoint indexOf (s pat : str) : option nat :=
  if startsWith pat s then Some 0
  else match s with
       | [] => None
       | _ :: s' => option_map S (indexOf s' pat)
       end.

(** GetSubstitution for a string pattern (no capture groups, no named
    groups): [$$] gives a dollar, [$&] the matched text, [$`] the text
    before the match and [$'] the text after it; a dollar followed by
    anything else (digits and [<] included, since there is no capture
    to refer to) stands for itself. *)
Fixpoint getSubstitution (matched before after template : str) : str :=
  match template with
  | [] => []
  | "$"%char :: "$"%char :: rest =>
      "$"%char :: getSubstitution matched before after rest
  | "$"%char :: "&"%char :: rest =>
      matched ++ getSubstitution matched before after rest
  | "$"%char :: "`"%char :: rest =>
      before ++ getSubstitution matched before after rest
  | "$"%char :: "'"%char :: rest =>
      after ++ getSubstitution matched before after rest
  | c :: rest => c :: getSubstitution matched before after rest
  end.

(** String.prototype.replace(searchValue, replaceValue) with two string
    arguments: only the first occurrence is replaced, and the
    replacement goes through [getSubstitution]. *)
Definition replace (s pat repl : str) : str :=
  match indexOf s pat with
  | None => s
  | Some pos =>
      let preceding := firstn pos s in
      let following := skipn (pos + length pat) s in
      preceding ++ getSubstitution pat preceding following repl ++ following
  end.

(** A match found at position [k] lies inside the string: what makes
    the loop of [split] terminate. *)
Lemma startsWith_length p : forall s,
  startsWith p s = true -> length p <= length s.
Proof.
  induction p as [|b p IHp]; intros [|x l] E; simpl in *;
    try lia; try discriminate.
  apply andb_true_iff in E. destruct E as [_ E]. apply IHp in E. lia.
Qed.

Lemma indexOf_bound : forall t p k,
  indexOf t p = Some k -> k + length p <= length t.
Proof.
  induction t as [|a t IH]; intros p k H; simpl in H.
  - destruct p; simpl in H; [injection H as <-; simpl; lia | discriminate].
  - destruct (startsWith p (a :: t)) eqn:E.
    + injection H as <-. apply startsWith_length in E. simpl in *. lia.
    + destruct (indexOf t p) eqn:E'; simpl in H; [|discriminate].
      injection H as <-. apply IH in E'. simpl. lia.
Qed.

(** Remembers the equation of a scrutinee across a [with] clause. *)
Definition inspect {A} (a : A) : {b | a = b} := exist _ a eq_refl.

(** The loop of String.prototype.split for a separator [c :: sep'] that
    is not empty: cut at the next occurrence, continue after it. *)
Equations? splitLoop (c : ascii) (sep' : str) (s : str) : list str
  by wf (length s) lt :=
  splitLoop c sep' s with inspect (indexOf s (c :: sep')) := {
    | exist _ None _ => [s]
    | exist _ (Some j) Hj =>
        firstn j s :: splitLoop c sep' (skipn (j + length (c :: sep')) s) }.
Proof.
  apply indexOf_bound in Hj. simpl in Hj.
  rewrite length_skipn. simpl. lia.
Qed.

(** String.prototype.split(separator) with a string separator and no
    limit: an empty separator gives the code units one by one (none for
    the empty string); otherwise the pieces between the occurrences. *)
Definition split (s sep : str) : list str :=
  match sep with
  | [] => map (fun ch => [ch]) s
  | c :: sep' =>
      match s with
      | [] => [s]
      | _ => splitLoop c sep' s
      end
  end.

End JS.

Import JS.

(* ===================================================================== *)
(** ** The shared types (RiskLevel, RiskPoint, ReviewSession, ...) *)
(* ===================================================================== *)

Module Types.

Inductive RiskLevel := HIGH | MEDIUM | LOW.

Inductive ContractStance := PARTY_A | PARTY_B | NEUTRAL.

Inductive ReviewStrictness := AGGRESSIVE | BALANCED | LOOSE.

Record ContractSummary := {
  type : str;
  parties : list str;
  amount : str;
  duration : str;
  mainSubject : str }.

Record RiskPoint := {
  id : str;
  originalText : str;
  riskDescription : str;
  reason : str;
  level : RiskLevel;
  suggestedText : str;
  isAddressed : bool }.

Record ContractData := {
  fileName : str;
  content : str;
  lastModified : Z }.

Record ReviewSession := {
  session_id : str;
  session_contract : ContractData;
  session_summary : option ContractSummary;
  session_risks : list RiskPoint;
  timestamp : Z }.

(** [{ ...r, isAddressed: true }] *)
Definition markAddressed (r : RiskPoint) : RiskPoint :=
  {| id := id r; originalText := originalText r;
     riskDescription := riskDescription r; reason := reason r;
     level := level r; suggestedText := suggestedText r;
     isAddressed := true |}.

End Types.

Import Types.

(* ===================================================================== *)
(** ** services/geminiService.ts: analyzeContractRisks *)
(* ===================================================================== *)

Module GeminiService.

(** An element of the array the analyzer answers with.  The response
    schema asks for the five fields; whatever [id] or [isAddressed] the
    parsed object may carry is overridden by the keys written after the
    spread. *)
Record RawRisk := {
  raw_originalText : str;
  raw_riskDescription : str;
  raw_reason : str;
  raw_level : RiskLevel;
  raw_suggestedText : str;
  raw_id : option str;
  raw_isAddressed : option bool }.

(** What happens inside the [try] block of analyzeContractRisks. *)
Inductive AnalyzerResponse :=
| CallRejected                  (* generateContent rejects: network, quota *)
| Unparsable                    (* JSON.parse throws, or the value has no map *)
| Parsed (rawRisks : list RawRisk).

(** What the service writes with console.error. *)
Inductive ConsoleEntry := RiskAnalysisFailed.

(** How an awaited promise settles. *)
Inductive Settled (A : Type) :=
| Fulfilled (value : A)
| RejectedWith (why : str).
Arguments Fulfilled {A} value.
Arguments RejectedWith {A} why.

(** Decimal rendering of an array index and of Date.now() inside a
    template literal. *)
Definition indexToString (n : nat) : str :=
  String.list_ascii_of_string (NilZero.string_of_uint (Nat.to_uint n)).

Definition timeToString (t : Z) : str :=
  String.list_ascii_of_string (NilZero.string_of_int (Z.to_int t)).

(** [`risk-${index}-${Date.now()}`] *)
Definition idTemplate (index : nat) (now : Z) : str :=
  lit "risk-" ++ indexToString index ++ lit "-" ++ timeToString now.

(** Array.prototype.map with the (element, index) callback. *)
Fixpoint mapIndexedFrom {A B} (f : A -> nat -> B) (i : nat) (l : list A)
  : list B :=
  match l with
  | [] => []
  | x :: l' => f x i :: mapIndexedFrom f (S i) l'
  end.

Definition mapIndexed {A B} (f : A -> nat -> B) (l : list A) : list B :=
  mapIndexedFrom f 0 l.

Section Analyze.

(** [clock i] is what Date.now() returns while the callback runs on
    the element of index [i]. *)
Variable clock : nat -> Z.

(** [{ ...r, id: `risk-${index}-${Date.now()}`, isAddressed: false }] *)
Definition stamp (r : RawRisk) (index : nat) : RiskPoint :=
  {| id := idTemplate index (clock index);
     originalText := raw_originalText r;
     riskDescription := raw_riskDescription r;
     reason := raw_reason r;
     level := raw_level r;
     suggestedText := raw_suggestedText r;
     isAddressed := false |}.

(** The promise of analyzeContractRisks never rejects: the [catch]
    writes to the console and returns the empty array.  The result is
    the settled promise and what was written to the console. *)
Definition analyzeContractRisks (response : AnalyzerResponse)
  : Settled (list RiskPoint) * list ConsoleEntry :=
  match response with
  | Parsed rawRisks => (Fulfilled (mapIndexed stamp rawRisks), [])
  | CallRejected | Unparsable => (Fulfilled [], [RiskAnalysisFailed])
  end.

End Analyze.

End GeminiService.

Import GeminiService.

(* ===================================================================== *)
(** ** components/ReviewInterface.tsx: the review session *)
(* ===================================================================== *)

Module ReviewInterface.

Inductive LoadingStep := NoStep | AnalyzingClauses.

(** The useState cells of the component. *)
Record State := {
  currentText : str;
  summary : option ContractSummary;
  risks : list RiskPoint;
  loading : bool;
  loadingStep : LoadingStep;
  stance : ContractStance;
  strictness : ReviewStrictness;
  selectedRiskId : option str }.

Definition setCurrentText (t : str) (st : State) : State :=
  {| currentText := t; summary := summary st; risks := risks st;
     loading := loading st; loadingStep := loadingStep st;
     stance := stance st; strictness := strictness st;
     selectedRiskId := selectedRiskId st |}.

Definition setRisks (rs : list RiskPoint) (st : State) : State :=
  {| currentText := currentText st; summary := summary st; risks := rs;
     loading := loading st; loadingStep := loadingStep st;
     stance := stance st; strictness := strictness st;
     selectedRiskId := selectedRiskId st |}.

Definition setLoading (b : bool) (st : State) : State :=
  {| currentText := currentText st; summary := summary st;
     risks := risks st; loading := b; loadingStep := loadingStep st;
     stance := stance st; strictness := strictness st;
     selectedRiskId := selectedRiskId st |}.

Definition setLoadingStep (s : LoadingStep) (st : State) : State :=
  {| currentText := currentText st; summary := summary st;
     risks := risks st; loading := loading st; loadingStep := s;
     stance := stance st; strictness := strictness st;
     selectedRiskId := selectedRiskId st |}.

Definition setSelectedRiskId (sel : option str) (st : State) : State :=
  {| currentText := currentText st; summary := summary st;
     risks := risks st; loading := loading st;
     loadingStep := loadingStep st; stance := stance st;
     strictness := strictness st; selectedRiskId := sel |}.

(** What a handler does besides updating the state. *)
Inductive Effect :=
| ServiceLog (entry : ConsoleEntry)   (* console.error of the service *)
| ConsoleError                        (* console.error of the handler *)
| AlertAnalysisFailed                 (* alert: analysis failed, retry *)
| SaveSession (session : ReviewSession).

(** *** handleAnalyze *)

Section Analyze.

Variable contract : ContractData.        (* the component's prop *)
Variable nowId nowStamp : Z.             (* the two Date.now() of the save *)

(** The body of handleAnalyze once the awaited promise has settled,
    taken with nothing arriving during the await and a save callback
    that returns; [handleAnalyzeSettled] below is the handler across
    the await. *)
Definition handleAnalyze (st : State)
  (outcome : Settled (list RiskPoint)) : State * list Effect :=
  let st := setLoadingStep AnalyzingClauses (setLoading true st) in
  match outcome with
  | Fulfilled identifiedRisks =>
      let st' := setLoadingStep NoStep (setRisks identifiedRisks st) in
      (setLoading false st',
       [SaveSession
          {| session_id := timeToString nowId;
             session_contract :=
               {| fileName := fileName contract;
                  content := currentText st;
                  lastModified := lastModified contract |};
             session_summary := summary st;
             session_risks := identifiedRisks;
             timestamp := nowStamp |}])
  | RejectedWith _ =>
      (setLoading false st, [ConsoleError; AlertAnalysisFailed])
  end.

(** requestAnalysis: the click on the analyse button, with the
    analyzer's response as the environment's answer. *)
Definition requestAnalysis (clock : nat -> Z) (st : State)
  (response : AnalyzerResponse) : State * list Effect :=
  let (outcome, log) := analyzeContractRisks clock response in
  let (st', effects) := handleAnalyze st outcome in
  (st', map ServiceLog log ++ effects).

End Analyze.

(** *** handleAcceptRisk, handleIgnoreRisk, handleSelectRisk *)

(** [prev.map(r => r.id === riskId ? { ...r, isAddressed: true } : r)] *)
Definition resolve (riskId : str) (rs : list RiskPoint) : list RiskPoint :=
  map (fun r => if str_eqb (id r) riskId then markAddressed r else r) rs.

Definition handleAcceptRisk (st : State) (risk : RiskPoint) : State :=
  let newText :=
    replace (currentText st) (originalText risk) (suggestedText risk) in
  let st1 := setCurrentText newText st in
  let st2 := setRisks (resolve (id risk) (risks st1)) st1 in
  let remaining :=
    filter (fun r => negb (isAddressed r) && negb (str_eqb (id r) (id risk)))
           (risks st) in
  if 0 <? length remaining
  then setSelectedRiskId None st2
  else setSelectedRiskId None st2.

Definition handleIgnoreRisk (st : State) (riskId : str) : State :=
  setSelectedRiskId None (setRisks (resolve riskId (risks st)) st).

(** Only the state update; the deferred scrollIntoView is not part of
    the session state. *)
Definition handleSelectRisk (st : State) (riskId : str) : State :=
  setSelectedRiskId (Some riskId) st.

(** *** navigateRisk *)

Inductive Direction := next | prev.

(** Array.prototype.findIndex: the first index whose element satisfies
    the predicate, or -1. *)
Fixpoint findIndex {A} (f : A -> bool) (l : list A) : Z :=
  match l with
  | [] => -1
  | x :: l' =>
      if f x then 0
      else let i := findIndex f l' in
           if i =? -1 then -1 else i + 1
  end%Z.

(** [r.id === selectedRiskId], where the selection may be null. *)
Definition isSelected (sel : option str) (r : RiskPoint) : bool :=
  match sel with
  | Some s => str_eqb (id r) s
  | None => false
  end.

Definition unresolved (r : RiskPoint) : bool := negb (isAddressed r).

(** [None] stands for the TypeError of reading [.id] on undefined. *)
Definition navigateRisk (st : State) (direction : Direction)
  : option State :=
  let activeRisks := filter unresolved (risks st) in
  let currentIndex := findIndex (isSelected (selectedRiskId st)) activeRisks in
  if (currentIndex =? -1)%Z then Some st
  else
    let nextIndex :=
      match direction with
      | next => currentIndex + 1
      | prev => currentIndex - 1
      end%Z in
    let nextIndex :=
      if (nextIndex >=? Z.of_nat (length activeRisks))%Z then 0%Z
      else nextIndex in
    let nextIndex :=
      if (nextIndex <? 0)%Z then (Z.of_nat (length activeRisks) - 1)%Z
      else nextIndex in
    match nth_error activeRisks (Z.to_nat nextIndex) with
    | Some r => Some (handleSelectRisk st (id r))
    | None => None
    end.

(** *** renderDocumentContent *)

(** A fragment of the rendering ([partLevel] is the field [level]). *)
Record Part := {
  text : str;
  riskId : option str;
  partLevel : option RiskLevel }.

Definition plain (t : str) : Part :=
  {| text := t; riskId := None; partLevel := None |}.

Definition span (risk : RiskPoint) : Part :=
  {| text := originalText risk;
     riskId := Some (id risk);
     partLevel := Some (level risk) |}.

(** [if (part.riskId)]: undefined and the empty string are falsy. *)
Definition attributed (part : Part) : bool :=
  match riskId part with
  | Some (_ :: _) => true
  | _ => false
  end.

(** The [for] loop over the pieces of a split: each piece, and the
    finding's span after every piece but the last. *)
Fixpoint pushPieces (risk : RiskPoint) (pieces : list str) : list Part :=
  match pieces with
  | [] => []
  | [p] => [plain p]
  | p :: rest => plain p :: span risk :: pushPieces risk rest
  end.

(** The body of [parts.forEach] for one part. *)
Definition splitPart (risk : RiskPoint) (part : Part) : list Part :=
  if attributed part then [part]
  else
    let pieces := split (text part) (originalText risk) in
    if 1 <? length pieces then pushPieces risk pieces
    else [part].

(** One finding's pass over the parts. *)
Definition splitPass (parts : list Part) (risk : RiskPoint) : list Part :=
  flat_map (splitPart risk) parts.

(** The parts computed by renderDocumentContent, before they are turned
    into elements. *)
Definition renderDocumentContent (st : State) : list Part :=
  let activeRisks := filter unresolved (risks st) in
  fold_left splitPass activeRisks [plain (currentText st)].

(** The fragments' texts, joined in order. *)
Definition renderedText (parts : list Part) : str :=
  concat (map text parts).

(** *** The drawer's buttons *)

(** [risks.find(r => r.id === selectedRiskId)] *)
Definition selectedRisk (st : State) : option RiskPoint :=
  find (isSelected (selectedRiskId st)) (risks st).

(** The drawer is rendered only for a selected finding; its buttons
    call the handlers on that finding. *)
Definition clickAccept (st : State) : State :=
  match selectedRisk st with
  | Some risk => handleAcceptRisk st risk
  | None => st
  end.

Definition clickIgnore (st : State) : State :=
  match selectedRisk st with
  | Some risk => handleIgnoreRisk st (id risk)
  | None => st
  end.

(** A sequence of accept and ignore calls. *)
Inductive Resolution :=
| Accept (risk : RiskPoint)
| Ignore (riskId : str).

Definition applyResolution (st : State) (a : Resolution) : State :=
  match a with
  | Accept risk => handleAcceptRisk st risk
  | Ignore riskId => handleIgnoreRisk st riskId
  end.

Definition applyResolutions (st : State) (acts : list Resolution) : State :=
  fold_left applyResolution acts st.

End ReviewInterface.

Import ReviewInterface.

(* ===================================================================== *)
(** ** Scenarios: concrete sessions used by the examples *)
(* ===================================================================== *)

Module Scenario.

(** The useState initial values of the component. *)
Definition initialState (contract : ContractData) : State :=
  {| currentText := content contract; summary := None; risks := [];
     loading := false; loadingStep := NoStep;
     stance := NEUTRAL; strictness := BALANCED;
     selectedRiskId := None |}.

Definition mkRaw (original suggested : str) (lv : RiskLevel) : RawRisk :=
  {| raw_originalText := original; raw_riskDescription := lit "Fee";
     raw_reason := lit "Too low"; raw_level := lv;
     raw_suggestedText := suggested;
     raw_id := None; raw_isAddressed := None |}.

Definition mkContract (body : str) : ContractData :=
  {| fileName := lit "contract.txt"; content := body; lastModified := 0 |}.

Definition clock0 : nat -> Z := fun _ => 1700000000000%Z.

(** A session right after a successful analysis of [body] that returned
    [raws]. *)
Definition analysed (body : str) (raws : list RawRisk) : State :=
  fst (requestAnalysis (mkContract body) 1700000000001 1700000000002
         clock0 (initialState (mkContract body)) (Parsed raws)).

Definition feeDoc : str := lit "Fee: $100. Late fee: $100.".

(** Finding A of the specification's example. *)
Definition feeSession : State :=
  analysed feeDoc [mkRaw (lit "$100") (lit "$200") HIGH].

Definition findingA : RiskPoint :=
  stamp clock0 (mkRaw (lit "$100") (lit "$200") HIGH) 0.

(** A suggested text that writes a dollar amount with two dollar signs. *)
Definition dollarSession : State :=
  analysed (lit "Fee: $100.") [mkRaw (lit "$100") (lit "$$200") HIGH].

Definition findingDollar : RiskPoint :=
  stamp clock0 (mkRaw (lit "$100") (lit "$$200") HIGH) 0.

(** Two findings whose original texts overlap on the letter c. *)
Definition overlapSession : State :=
  analysed (lit "abcde")
           [mkRaw (lit "abc") (lit "x") HIGH; mkRaw (lit "cde") (lit "y") LOW].

Definition findingAbc : RiskPoint :=
  stamp clock0 (mkRaw (lit "abc") (lit "x") HIGH) 0.

Definition findingCde : RiskPoint :=
  stamp clock0 (mkRaw (lit "cde") (lit "y") LOW) 1.

(** Three findings; the middle one is ignored, the last one selected. *)
Definition threeSession : State :=
  analysed (lit "alpha beta gamma")
           [mkRaw (lit "alpha") (lit "a") HIGH;
            mkRaw (lit "beta") (lit "b") MEDIUM;
            mkRaw (lit "gamma") (lit "c") LOW].

Definition findingAlpha : RiskPoint :=
  stamp clock0 (mkRaw (lit "alpha") (lit "a") HIGH) 0.

Definition findingBeta : RiskPoint :=
  stamp clock0 (mkRaw (lit "beta") (lit "b") MEDIUM) 1.

Definition findingGamma : RiskPoint :=
  stamp clock0 (mkRaw (lit "gamma") (lit "c") LOW) 2.

Definition onGamma : State :=
  handleSelectRisk (handleIgnoreRisk threeSession (id findingBeta))
                   (id findingGamma).

(** The selection points at a finding that is resolved. *)
Definition onIgnoredBeta : State :=
  handleSelectRisk (handleIgnoreRisk threeSession (id findingBeta))
                   (id findingBeta).

End Scenario.

Import Scenario.

(* ===================================================================== *)
(** ** ReviewInterface.tsx: mounting, the dashboard, the clickable parts *)
(* ===================================================================== *)

Module ReviewScreen.

Definition setSummary (s : option ContractSummary) (st : State) : State :=
  {| currentText := currentText st; summary := s; risks := risks st;
     loading := loading st; loadingStep := loadingStep st;
     stance := stance st; strictness := strictness st;
     selectedRiskId := selectedRiskId st |}.

(** The body of the effect that runs on mount and whenever the contract
    text or the initial session changes.  Without an initial session it
    also starts the summary request, whose answer is [summaryArrived]. *)
Definition loadDocument (contract : ContractData)
  (initialSession : option ReviewSession) (st : State) : State :=
  let st := setCurrentText (content contract) st in
  match initialSession with
  | Some session =>
      setSummary (session_summary session)
                 (setRisks (session_risks session) st)
  | None =>
      setSelectedRiskId None (setSummary None (setRisks [] st))
  end.

(** [setSummary(sum)] once generateContractSummary has answered. *)
Definition summaryArrived (sum : ContractSummary) (st : State) : State :=
  setSummary (Some sum) st.

(** The first render followed by the effect. *)
Definition mount (contract : ContractData)
  (initialSession : option ReviewSession) : State :=
  loadDocument contract initialSession (initialState contract).

(** *** The numbers of the dashboard *)

Definition level_eqb (a b : RiskLevel) : bool :=
  match a, b with
  | HIGH, HIGH | MEDIUM, MEDIUM | LOW, LOW => true
  | _, _ => false
  end.

(** [risks.length] *)
Definition totalCount (st : State) : nat := length (risks st).

(** [risks.filter(r => r.isAddressed).length] *)
Definition addressedCount (st : State) : nat :=
  length (filter isAddressed (risks st)).

(** [activeCount = risks.filter(r => !r.isAddressed).length] *)
Definition activeCount (st : State) : nat :=
  length (filter unresolved (risks st)).

(** [risks.filter(r => r.level === lv && !r.isAddressed).length] *)
Definition levelCount (lv : RiskLevel) (st : State) : nat :=
  length (filter (fun r => level_eqb (level r) lv && negb (isAddressed r))
                 (risks st)).

(** *** What can be clicked *)

(** A fragment with a truthy riskId is rendered with
    [onClick={() => handleSelectRisk(part.riskId!)}]; the other fragments
    have no handler. *)
Definition clickPart (st : State) (idx : nat) : State :=
  match nth_error (renderDocumentContent st) idx with
  | Some part =>
      if attributed part then
        match riskId part with
        | Some i => handleSelectRisk st i
        | None => st
        end
      else st
  | None => st
  end.

(** The previous and next buttons live in the drawer, which exists only
    for a selected finding; if the handler throws, no state is set. *)
Definition clickNavigate (st : State) (direction : Direction) : State :=
  match selectedRisk st with
  | Some _ =>
      match navigateRisk st direction with
      | Some st' => st'
      | None => st
      end
  | None => st
  end.

(** The back and close buttons of the drawer: [setSelectedRiskId(null)]. *)
Definition clickClose (st : State) : State :=
  match selectedRisk st with
  | Some _ => setSelectedRiskId None st
  | None => st
  end.

(** The restart button of the dashboard, shown when there are findings:
    [setRisks([]); setSummary(null)]. *)
Definition clickReset (st : State) : State :=
  if 0 <? length (risks st) then setSummary None (setRisks [] st) else st.

(** The analyse button, shown when there is no finding and disabled
    while loading; the handler is taken with its await completed. *)
Definition clickAnalyze (contract : ContractData) (nowId nowStamp : Z)
  (clock : nat -> Z) (response : AnalyzerResponse) (st : State) : State :=
  if (length (risks st) =? 0) && negb (loading st)
  then fst (requestAnalysis contract nowId nowStamp clock st response)
  else st.

(** What happens to a mounted review screen. *)
Inductive Event :=
| Load (contract : ContractData) (initialSession : option ReviewSession)
| SummaryArrived (sum : ContractSummary)
| AnalyzeClicked (contract : ContractData) (nowId nowStamp : Z)
                 (clock : nat -> Z) (response : AnalyzerResponse)
| PartClicked (idx : nat)
| NavigateClicked (direction : Direction)
| AcceptClicked
| IgnoreClicked
| CloseClicked
| ResetClicked.

Definition step (st : State) (e : Event) : State :=
  match e with
  | Load contract initialSession => loadDocument contract initialSession st
  | SummaryArrived sum => summaryArrived sum st
  | AnalyzeClicked contract nowId nowStamp clock response =>
      clickAnalyze contract nowId nowStamp clock response st
  | PartClicked idx => clickPart st idx
  | NavigateClicked direction => clickNavigate st direction
  | AcceptClicked => clickAccept st
  | IgnoreClicked => clickIgnore st
  | CloseClicked => clickClose st
  | ResetClicked => clickReset st
  end.

Definition run (st : State) (events : list Event) : State :=
  fold_left step events st.

End ReviewScreen.

Import ReviewScreen.

(* ===================================================================== *)
(** ** handleAnalyze across its await *)
(* ===================================================================== *)

Module AnalyzeAwait.

(** handleAnalyze with what its closure holds set apart from the state
    its setters meet.  [clicked] is the state of the render in which the
    button was clicked: the text and the summary of the saved session
    are read from it.  [current] is the state when the awaited promise
    settles (the click's own setLoading and setLoadingStep, and whatever
    arrived meanwhile, such as the summary).  [saveThrows] tells whether
    the onSaveSession callback throws, which is what leads a fulfilled
    promise into the [catch].  [SaveSession s] records that
    onSaveSession was called with [s]. *)
Definition handleAnalyzeSettled (contract : ContractData)
  (nowId nowStamp : Z) (clicked current : State)
  (outcome : Settled (list RiskPoint)) (saveThrows : bool)
  : State * list Effect :=
  match outcome with
  | Fulfilled identifiedRisks =>
      let st' := setLoadingStep NoStep (setRisks identifiedRisks current) in
      let session :=
        {| session_id := timeToString nowId;
           session_contract :=
             {| fileName := fileName contract;
                content := currentText clicked;
                lastModified := lastModified contract |};
           session_summary := summary clicked;
           session_risks := identifiedRisks;
           timestamp := nowStamp |} in
      if saveThrows
      then (setLoading false st',
            [SaveSession session; ConsoleError; AlertAnalysisFailed])
      else (setLoading false st', [SaveSession session])
  | RejectedWith _ =>
      (setLoading false current, [ConsoleError; AlertAnalysisFailed])
  end.

(** requestAnalysis across the await. *)
Definition requestAnalysisSettled (contract : ContractData)
  (nowId nowStamp : Z) (clock : nat -> Z) (clicked current : State)
  (response : AnalyzerResponse) (saveThrows : bool)
  : State * list Effect :=
  let (outcome, log) := analyzeContractRisks clock response in
  let (st', effects) :=
    handleAnalyzeSettled contract nowId nowStamp clicked current
                         outcome saveThrows in
  (st', map ServiceLog log ++ effects).

(** The state the setters meet when nothing else happens during the
    await: the clicked state with the click's own two updates. *)
Definition loadingStarted (st : State) : State :=
  setLoadingStep AnalyzingClauses (setLoading true st).

End AnalyzeAwait.

Import AnalyzeAwait.

(* ===================================================================== *)
(** ** geminiService.ts: the summary prompt and draftNewContract;
       the drafting component *)
(* ===================================================================== *)

Module Drafting.

Definition newline : ascii := "010"%char.
Definition dquote : ascii := "034"%char.

(** The template literal of generateContractSummary around
    [text.substring(0, 10000)]. *)
Definition summaryPromptHead : str :=
  newline :: lit "    Analyze the following legal contract text and extract key information. "
  ++ newline :: lit "    Return a JSON object."
  ++ newline :: lit "    "
  ++ newline :: lit "    Text: " ++ [dquote].

Definition summaryPromptTail : str :=
  lit "..." ++ dquote :: newline :: lit "  ".

Definition summaryPrompt (text : str) : str :=
  summaryPromptHead ++ firstn 10000 text ++ summaryPromptTail.

(** What happens inside the [try] block of draftNewContract:
    generateContent rejects, or answers with a text that may be
    undefined. *)
Inductive DraftResponse :=
| DraftRejected
| DraftAnswered (text : option str).

(** [response.text || "Drafting failed."], and the [catch]. *)
Definition draftNewContract (response : DraftResponse) : str :=
  match response with
  | DraftAnswered (Some (c :: t)) => c :: t
  | DraftAnswered _ => lit "Drafting failed."
  | DraftRejected => lit "Error drafting contract."
  end.

(** The useState cells of ContractDrafting. *)
Record DraftState := {
  draftType : str;
  requirements : str;
  result : str;
  draftLoading : bool }.

Definition draftInitial : DraftState :=
  {| draftType := lit "Service Agreement"; requirements := [];
     result := []; draftLoading := false |}.

(** handleDraft with its await completed. *)
Definition handleDraft (st : DraftState) (response : DraftResponse)
  : DraftState :=
  {| draftType := draftType st; requirements := requirements st;
     result := draftNewContract response; draftLoading := false |}.

(** The button is disabled while loading and while the requirements are
    empty. *)
Definition clickDraft (st : DraftState) (response : DraftResponse)
  : DraftState :=
  if draftLoading st || (length (requirements st) =? 0) then st
  else handleDraft st response.

(** [result ? <the draft> : <the placeholder>] *)
Definition showsDraft (st : DraftState) : bool :=
  negb (length (result st) =? 0).

End Drafting.

Import Drafting.

(* ===================================================================== *)
(** ** Vocabulary of the statements *)
(* ===================================================================== *)

(** [pat] occurs in [s]: some code units, then [pat], then the rest. *)
Definition occursIn (pat s : str) : Prop :=
  exists before after, s = before ++ pat ++ after.

(** Array.prototype.join, the inverse of split. *)
Fixpoint joinWith (sep : str) (pieces : list str) : str :=
  match pieces with
  | [] => []
  | [p] => p
  | p :: rest => p ++ sep ++ joinWith sep rest
  end.

(** A finding is kept as it is or gets its flag raised. *)
Definition flagRaised (r r' : RiskPoint) : Prop :=
  r' = r \/ r' = markAddressed r.

(** Reading the decimal text back gives the index. *)
Definition parseIndex (s : str) : option nat :=
  option_map Nat.of_uint
    (NilZero.uint_of_string (String.string_of_list_ascii s)).





(** The position that navigateRisk moves to from position [i] among [n]
    unresolved findings. *)
Definition navTarget (direction : Direction) (i n : nat) : nat :=
  match direction with
  | next => if S i =? n then 0 else S i
  | prev => if i =? 0 then n - 1 else i - 1
  end.

(** Findings as analyzeContractRisks makes them: distinct, truthy ids. *)
Definition wellFormedFindings (rs : list RiskPoint) : Prop :=
  NoDup (map id rs) /\ Forall (fun r => id r <> []) rs.

(** A session as handleAnalyze saves it. *)
Definition savedSession (s : ReviewSession) : Prop :=
  wellFormedFindings (session_risks s) /\
  Forall (fun r => isAddressed r = false) (session_risks s).

(** The initial session handed to the component is a saved one. *)
Definition eventOk (e : Event) : Prop :=
  match e with
  | Load _ (Some s) => savedSession s
  | _ => True
  end.

(** What the review screen keeps true: the findings are well formed and
    the finding shown in the drawer, if any, is unresolved. *)
Definition screenInvariant (st : State) : Prop :=
  wellFormedFindings (risks st) /\
  forall r, selectedRisk st = Some r -> isAddressed r = false.

(* ===================================================================== *)
(** ** The primitives and the rendering on examples *)
(* ===================================================================== *)

Example split_ex1 : split (lit "Fee: $100. Late fee: $100.") (lit "$100")
  = [lit "Fee: "; lit ". Late fee: "; lit "."].
Proof. reflexivity. Qed.

Example split_ex2 : split (lit "aaa") (lit "aa") = [lit ""; lit "a"].
Proof. reflexivity. Qed.

Example split_ex3 : split (lit "abc") (lit "") = [lit "a"; lit "b"; lit "c"].
Proof. reflexivity. Qed.

Example replace_ex1 :
  replace (lit "Fee: $100. Late fee: $100.") (lit "$100") (lit "$200")
  = lit "Fee: $200. Late fee: $100.".
Proof. reflexivity. Qed.

Example replace_ex2 :
  replace (lit "Fee: $100.") (lit "$100") (lit "$$200") = lit "Fee: $200.".
Proof. reflexivity. Qed.

Example feeSession_risks : risks feeSession = [findingA].
Proof. reflexivity. Qed.

Example findingA_id : id findingA = lit "risk-0-1700000000000".
Proof. reflexivity. Qed.

Example fee_rendering :
  renderDocumentContent feeSession
  = [plain (lit "Fee: "); span findingA; plain (lit ". Late fee: ");
     span findingA; plain (lit ".")].
Proof. reflexivity. Qed.

Example fee_accept_once :
  currentText (handleAcceptRisk feeSession findingA)
  = lit "Fee: $200. Late fee: $100.".
Proof. reflexivity. Qed.

Example overlap_rendering :
  renderDocumentContent overlapSession
  = [plain (lit ""); span findingAbc; plain (lit "de")].
Proof. reflexivity. Qed.

(* ===================================================================== *)
(** ** Facts about the string primitives *)
(* ===================================================================== *)

Section StringFacts.

Lemma str_eqb_eq a b : str_eqb a b = true <-> a = b.
Proof.
  unfold str_eqb. destruct (list_eq_dec ascii_dec a b); split;
    intros; congruence.
Qed.

Lemma str_eqb_refl a : str_eqb a a = true.
Proof. now apply str_eqb_eq. Qed.

Lemma str_eqb_neq a b : str_eqb a b = false <-> a <> b.
Proof.
  unfold str_eqb. destruct (list_eq_dec ascii_dec a b); split;
    intros; congruence.
Qed.

Lemma startsWith_app p : forall rest, startsWith p (p ++ rest) = true.
Proof.
  induction p as [|a p IH]; intros rest; simpl; [reflexivity|].
  now rewrite Ascii.eqb_refl, IH.
Qed.

Lemma startsWith_inv p : forall s,
  startsWith p s = true -> s = p ++ skipn (length p) s.
Proof.
  induction p as [|a p IH]; intros [|b s] H; simpl in *;
    try reflexivity; try discriminate.
  apply andb_true_iff in H. destruct H as [Hab H].
  apply Ascii.eqb_eq in Hab. subst b. f_equal. now apply IH.
Qed.

(** A found position cuts the string into the text before, the
    pattern, and the text after. *)
Lemma indexOf_Some_cut : forall s pat k,
  indexOf s pat = Some k ->
  s = firstn k s ++ pat ++ skipn (k + length pat) s.
Proof.
  induction s as [|a s IH]; intros pat k H; simpl in H.
  - destruct (startsWith pat []) eqn:E; [|discriminate].
    injection H as <-. now apply startsWith_inv in E.
  - destruct (startsWith pat (a :: s)) eqn:E.
    + injection H as <-. now apply startsWith_inv in E.
    + destruct (indexOf s pat) as [j|] eqn:Ej; [|discriminate].
      injection H as <-. simpl. f_equal. now apply IH.
Qed.

(** No match starts before the found position. *)
Lemma indexOf_Some_first : forall s pat k,
  indexOf s pat = Some k ->
  forall j, j < k -> startsWith pat (skipn j s) = false.
Proof.
  induction s as [|a s IH]; intros pat k H j Hj; simpl in H.
  - destruct (startsWith pat []); [injection H as <-; lia | discriminate].
  - destruct (startsWith pat (a :: s)) eqn:E.
    + injection H as <-. lia.
    + destruct (indexOf s pat) as [i|] eqn:Ei; [|discriminate].
      injection H as <-. destruct j as [|j]; [exact E|].
      simpl. apply (IH pat i Ei). lia.
Qed.

Lemma indexOf_None_no_prefix : forall s pat,
  indexOf s pat = None -> forall j, startsWith pat (skipn j s) = false.
Proof.
  induction s as [|a s IH]; intros pat H j; simpl in H.
  - destruct (startsWith pat []) eqn:E; [discriminate|].
    now destruct j.
  - destruct (startsWith pat (a :: s)) eqn:E; [discriminate|].
    destruct (indexOf s pat) eqn:Ei; [discriminate|].
    destruct j as [|j]; [exact E|]. simpl. now apply IH.
Qed.

Lemma skipn_length_app {A} (l1 l2 : list A) :
  skipn (length l1) (l1 ++ l2) = l2.
Proof. induction l1; simpl; auto. Qed.

Lemma indexOf_None_iff s pat : indexOf s pat = None <-> ~ occursIn pat s.
Proof.
  split.
  - intros H (b & a & E).
    pose proof (indexOf_None_no_prefix _ _ H (length b)) as F.
    rewrite E, skipn_length_app, startsWith_app in F. discriminate.
  - intros H. destruct (indexOf s pat) as [k|] eqn:E; [|reflexivity].
    exfalso. apply H. apply indexOf_Some_cut in E.
    now exists (firstn k s), (skipn (k + length pat) s).
Qed.

Lemma indexOf_Some_iff s pat :
  (exists k, indexOf s pat = Some k) <-> occursIn pat s.
Proof.
  split.
  - intros [k E]. apply indexOf_Some_cut in E.
    now exists (firstn k s), (skipn (k + length pat) s).
  - intros H. destruct (indexOf s pat) as [k|] eqn:E; [now exists k|].
    now apply indexOf_None_iff in E.
Qed.

Lemma occursIn_trans a b c : occursIn a b -> occursIn b c -> occursIn a c.
Proof.
  intros (x & y & ->) (u & v & ->).
  exists (u ++ x), (y ++ v). now rewrite <- !app_assoc.
Qed.

Lemma occursIn_refl a : occursIn a a.
Proof. exists [], []. simpl. now rewrite app_nil_r. Qed.


End StringFacts.

(* ===================================================================== *)
(** ** Facts about split *)
(* ===================================================================== *)

Section SplitFacts.

Lemma splitLoop_not_nil c sep' s : splitLoop c sep' s <> [].
Proof. funelim (splitLoop c sep' s); simp splitLoop; discriminate. Qed.

Lemma joinWith_cons sep p rest :
  rest <> [] -> joinWith sep (p :: rest) = p ++ sep ++ joinWith sep rest.
Proof. destruct rest; [congruence | reflexivity]. Qed.

Lemma splitLoop_join c sep' s : joinWith (c :: sep') (splitLoop c sep' s) = s.
Proof.
  funelim (splitLoop c sep' s).
  - rewrite joinWith_cons by apply splitLoop_not_nil.
    rewrite H. symmetry. now apply indexOf_Some_cut.
  - reflexivity.
Qed.


Lemma joinWith_code_units s : joinWith [] (map (fun ch => [ch]) s) = s.
Proof.
  induction s as [|a s IH]; [reflexivity|].
  destruct s as [|b s]; [reflexivity|].
  change (joinWith [] (map (fun ch => [ch]) (a :: b :: s)))
    with (a :: joinWith [] (map (fun ch => [ch]) (b :: s))).
  now rewrite IH.
Qed.

(** Joining the pieces with the separator gives the string back. *)
Lemma split_join s sep : joinWith sep (split s sep) = s.
Proof.
  destruct sep as [|c sep']; simpl.
  - apply joinWith_code_units.
  - destruct s; [reflexivity|]. apply splitLoop_join.
Qed.



End SplitFacts.

(* ===================================================================== *)
(** ** Facts about the rendering passes *)
(* ===================================================================== *)

Section RenderFacts.

Lemma renderedText_app a b :
  renderedText (a ++ b) = renderedText a ++ renderedText b.
Proof. unfold renderedText. now rewrite map_app, concat_app. Qed.

Lemma renderedText_cons p ps :
  renderedText (p :: ps) = text p ++ renderedText ps.
Proof. reflexivity. Qed.

(** The text of a fragment occurs in the joined text. *)
Lemma In_renderedText p parts :
  In p parts -> occursIn (text p) (renderedText parts).
Proof.
  intros H. apply in_split in H. destruct H as (l1 & l2 & ->).
  exists (renderedText l1), (renderedText l2).
  now rewrite renderedText_app, renderedText_cons.
Qed.

Lemma pushPieces_text risk pieces :
  renderedText (pushPieces risk pieces) = joinWith (originalText risk) pieces.
Proof.
  induction pieces as [|p rest IH]; [reflexivity|].
  destruct rest as [|q rest].
  - simpl. apply app_nil_r.
  - change (pushPieces risk (p :: q :: rest))
      with (plain p :: span risk :: pushPieces risk (q :: rest)).
    rewrite !renderedText_cons, IH. reflexivity.
Qed.

Lemma In_pushPieces risk pieces p :
  In p (pushPieces risk pieces) ->
  (exists t, In t pieces /\ p = plain t) \/ p = span risk.
Proof.
  induction pieces as [|q rest IH]; [intros []|].
  destruct rest as [|q' rest].
  - intros [<-|[]]. left. exists q. split; [now left | reflexivity].
  - change (pushPieces risk (q :: q' :: rest))
      with (plain q :: span risk :: pushPieces risk (q' :: rest)).
    intros [<-|[<-|H]].
    + left. exists q. split; [now left | reflexivity].
    + now right.
    + destruct (IH H) as [(t & Ht & ->) | ->]; [left|now right].
      exists t. split; [now right | reflexivity].
Qed.

(** One part's subdivision keeps the part's text. *)
Lemma splitPart_text risk part :
  renderedText (splitPart risk part) = text part.
Proof.
  unfold splitPart. destruct (attributed part).
  - simpl. apply app_nil_r.
  - destruct (1 <? length (split (text part) (originalText risk))).
    + rewrite pushPieces_text. apply split_join.
    + simpl. apply app_nil_r.
Qed.

Lemma splitPass_text parts risk :
  renderedText (splitPass parts risk) = renderedText parts.
Proof.
  unfold splitPass. induction parts as [|p ps IH]; [reflexivity|].
  simpl. rewrite renderedText_app, renderedText_cons, IH.
  now rewrite splitPart_text.
Qed.

Lemma fold_splitPass_text rs : forall parts,
  renderedText (fold_left splitPass rs parts) = renderedText parts.
Proof.
  induction rs as [|r rs IH]; intros parts; simpl; [reflexivity|].
  now rewrite IH, splitPass_text.
Qed.




(** Where the fragments of a subdivision come from. *)
Lemma In_splitPart risk part p :
  In p (splitPart risk part) ->
  p = part \/
  (attributed part = false /\
   occursIn (originalText risk) (text part) /\
   (p = span risk \/
    exists t, p = plain t /\
              In t (split (text part) (originalText risk)))).
Proof.
  unfold splitPart. destruct (attributed part) eqn:A.
  - intros [<-|[]]. now left.
  - destruct (1 <? length (split (text part) (originalText risk))) eqn:L.
    + intros H. right. split; [reflexivity|]. split.
      * pose proof (split_join (text part) (originalText risk)) as J.
        apply Nat.ltb_lt in L.
        destruct (split (text part) (originalText risk))
          as [|x [|y rest]]; simpl in L; try lia.
        rewrite joinWith_cons in J by discriminate.
        now exists x, (joinWith (originalText risk) (y :: rest)).
      * apply In_pushPieces in H. destruct H as [(t & Ht & ->) | ->].
        -- right. now exists t.
        -- now left.
    + intros [<-|[]]. now left.
Qed.

End RenderFacts.

Section RenderInvariants.

Lemma In_joinWith sep pieces t :
  In t pieces -> occursIn t (joinWith sep pieces).
Proof.
  induction pieces as [|p rest IH]; [intros []|].
  destruct rest as [|q rest].
  - intros [<-|[]]. apply occursIn_refl.
  - rewrite joinWith_cons by discriminate. intros [<-|H].
    + exists [], (sep ++ joinWith sep (q :: rest)). reflexivity.
    + destruct (IH H) as (b & a & E). rewrite E.
      exists (p ++ sep ++ b), a. now rewrite <- !app_assoc.
Qed.





(** Every fragment that names a finding is that finding's span. *)
Lemma fold_splitPass_spans (known : RiskPoint -> Prop) rs : forall parts,
  Forall known rs ->
  (forall p i, In p parts -> riskId p = Some i ->
               exists r, known r /\ p = span r) ->
  forall p i, In p (fold_left splitPass rs parts) -> riskId p = Some i ->
              exists r, known r /\ p = span r.
Proof.
  induction rs as [|r rs IH]; intros parts K Inv; simpl; [exact Inv|].
  inversion K as [|? ? Kr Krs]; subst. apply (IH _ Krs).
  intros p i H Hi. unfold splitPass in H. apply in_flat_map in H.
  destruct H as (part & Hpart & H). apply In_splitPart in H.
  destruct H as [->|(_ & _ & [->|(t & -> & _)])].
  - now apply (Inv part i).
  - now exists r.
  - discriminate.
Qed.

End RenderInvariants.

(* ===================================================================== *)
(** ** renderDocumentContent: partition, list order, highlighting *)
(* ===================================================================== *)

(** C4: for every document text and every finding list, the texts of the
    fragments produced by renderDocumentContent, concatenated in order,
    are exactly the current document text. *)
Theorem render_partition_complete (st : State) :
  renderedText (renderDocumentContent st) = currentText st.
Proof.
  unfold renderDocumentContent. rewrite fold_splitPass_text.
  simpl. apply app_nil_r.
Qed.








(* ===================================================================== *)
(** ** Facts about replace *)
(* ===================================================================== *)

Section ReplaceFacts.

(** A replacement text without a dollar sign is taken as it is. *)
Lemma getSubstitution_no_dollar matched before after template :
  ~ In "$"%char template ->
  getSubstitution matched before after template = template.
Proof.
  induction template as [|c rest IH]; intros H; [reflexivity|].
  assert (Hc : c <> "$"%char) by (intros ->; apply H; now left).
  assert (Hrest : ~ In "$"%char rest) by (intros F; apply H; now right).
  specialize (IH Hrest).
  change (getSubstitution matched before after (c :: rest)) with
    (match c, rest with
     | "$"%char, "$"%char :: r =>
         "$"%char :: getSubstitution matched before after r
     | "$"%char, "&"%char :: r =>
         matched ++ getSubstitution matched before after r
     | "$"%char, "`"%char :: r =>
         before ++ getSubstitution matched before after r
     | "$"%char, "'"%char :: r =>
         after ++ getSubstitution matched before after r
     | _, _ => c :: getSubstitution matched before after rest
     end).
  destruct c as [[] [] [] [] [] [] [] []]; try (now rewrite IH);
    now destruct Hc.
Qed.

Lemma replace_absent s pat repl :
  ~ occursIn pat s -> replace s pat repl = s.
Proof.
  intros H. apply indexOf_None_iff in H. unfold replace. now rewrite H.
Qed.

Lemma firstn_length_app {A} (l1 l2 : list A) :
  firstn (length l1) (l1 ++ l2) = l1.
Proof. induction l1; simpl; [now destruct l2 | now f_equal]. Qed.

(** The position found is the one of the first occurrence. *)
Lemma indexOf_first_occurrence before pat after :
  (forall j, j < length before ->
             startsWith pat (skipn j (before ++ pat ++ after)) = false) ->
  indexOf (before ++ pat ++ after) pat = Some (length before).
Proof.
  intros Hfirst. set (s := before ++ pat ++ after) in *.
  destruct (indexOf s pat) as [k|] eqn:E.
  - f_equal. destruct (Nat.lt_trichotomy k (length before)) as [L|[L|L]].
    + exfalso. specialize (Hfirst k L).
      pose proof (indexOf_Some_cut _ _ E) as C.
      pose proof (indexOf_bound _ _ E) as B.
      rewrite C in Hfirst at 1.
      assert (Hk : length (firstn k s) = k)
        by (apply firstn_length_le; lia).
      rewrite <- Hk in Hfirst at 1.
      rewrite skipn_length_app, startsWith_app in Hfirst. discriminate.
    + exact L.
    + exfalso. pose proof (indexOf_Some_first _ _ E L) as F.
      unfold s in F. rewrite skipn_length_app, startsWith_app in F.
      discriminate.
  - exfalso. apply indexOf_None_iff in E. apply E. now exists before, after.
Qed.

(** replace cuts out the first occurrence and nothing else. *)
Lemma replace_first_occurrence before pat after repl :
  (forall j, j < length before ->
             startsWith pat (skipn j (before ++ pat ++ after)) = false) ->
  replace (before ++ pat ++ after) pat repl
  = before ++ getSubstitution pat before after repl ++ after.
Proof.
  intros H. unfold replace. rewrite (indexOf_first_occurrence _ _ _ H).
  rewrite firstn_length_app.
  rewrite <- length_app, (app_assoc before pat after), skipn_length_app.
  reflexivity.
Qed.

End ReplaceFacts.

(* ===================================================================== *)
(** ** handleAcceptRisk and handleIgnoreRisk *)
(* ===================================================================== *)

Section ResolutionFacts.

Lemma markAddressed_fixed r : isAddressed r = true -> markAddressed r = r.
Proof. destruct r; simpl; now intros ->. Qed.

Lemma resolve_already_resolved x rs :
  (forall r, In r rs -> id r = x -> isAddressed r = true) ->
  resolve x rs = rs.
Proof.
  intros H. unfold resolve. rewrite <- (map_id rs) at 2.
  apply map_ext_in. intros r Hr.
  destruct (str_eqb (id r) x) eqn:E; [|reflexivity].
  apply markAddressed_fixed. apply (H r Hr). now apply str_eqb_eq.
Qed.

Lemma resolve_marks x rs r :
  In r (resolve x rs) -> id r = x -> isAddressed r = true.
Proof.
  unfold resolve. intros H Hx. apply in_map_iff in H.
  destruct H as (r0 & <- & _).
  destruct (str_eqb (id r0) x) eqn:E; [reflexivity|].
  apply str_eqb_neq in E. now destruct E.
Qed.

(** Both handlers clear the selection whatever is left to review. *)
Lemma handleAcceptRisk_eq st risk :
  handleAcceptRisk st risk
  = setSelectedRiskId None
      (setRisks (resolve (id risk) (risks st))
         (setCurrentText
            (replace (currentText st) (originalText risk)
                     (suggestedText risk)) st)).
Proof. unfold handleAcceptRisk. now destruct (0 <? _). Qed.

Lemma flagRaised_trans a b c :
  flagRaised a b -> flagRaised b c -> flagRaised a c.
Proof.
  intros [->| ->] [->| ->]; unfold flagRaised; auto.
Qed.

Lemma resolve_flagRaised x rs : Forall2 flagRaised rs (resolve x rs).
Proof.
  induction rs as [|r rs IH]; simpl; constructor; [|exact IH].
  destruct (str_eqb (id r) x); [now right | now left].
Qed.

Lemma Forall2_flagRaised_trans : forall a b c,
  Forall2 flagRaised a b -> Forall2 flagRaised b c -> Forall2 flagRaised a c.
Proof.
  induction a as [|x a IH]; intros b c Hab Hbc.
  - inversion Hab; subst. inversion Hbc; subst. constructor.
  - inversion Hab as [|? y ? b' Hxy Hab']; subst.
    inversion Hbc as [|? z ? c' Hyz Hbc']; subst.
    constructor; [now apply flagRaised_trans with y | now apply IH with b'].
Qed.

Lemma Forall2_flagRaised_refl rs : Forall2 flagRaised rs rs.
Proof. induction rs; constructor; [now left | assumption]. Qed.

Lemma applyResolution_flagRaised st a :
  Forall2 flagRaised (risks st) (risks (applyResolution st a)).
Proof.
  destruct a as [risk|x]; simpl.
  - rewrite handleAcceptRisk_eq. apply resolve_flagRaised.
  - apply resolve_flagRaised.
Qed.

Lemma applyResolutions_flagRaised acts : forall st,
  Forall2 flagRaised (risks st) (risks (applyResolutions st acts)).
Proof.
  induction acts as [|a acts IH]; intros st; simpl.
  - apply Forall2_flagRaised_refl.
  - eapply Forall2_flagRaised_trans; [apply applyResolution_flagRaised|].
    apply IH.
Qed.

End ResolutionFacts.

(** With a suggested text that holds no dollar sign, accepting a finding
    whose original text first occurs after [before] gives
    [before ++ suggested ++ after]: the first occurrence is replaced, the
    text around it and every later occurrence are kept. *)
Lemma accept_replaces_first_occurrence (st : State) (risk : RiskPoint)
  (before after : str) :
  currentText st = before ++ originalText risk ++ after ->
  (forall j, j < length before ->
     startsWith (originalText risk) (skipn j (currentText st)) = false) ->
  ~ In "$"%char (suggestedText risk) ->
  currentText (handleAcceptRisk st risk)
  = before ++ suggestedText risk ++ after.
Proof.
  intros E Hfirst Hlit. rewrite handleAcceptRisk_eq. simpl.
  rewrite E in *. rewrite replace_first_occurrence by exact Hfirst.
  now rewrite getSubstitution_no_dollar.
Qed.

(** C3 (the code departs from the claim): the session holds the document
    "Fee: $100." and a finding with original text "$100" and suggested
    text "$$200".  Accepting it does not put the suggested text in place
    of the first occurrence: String.prototype.replace reads "$$" in the
    replacement as one dollar sign, and the document becomes
    "Fee: $200." instead of "Fee: $$200.". *)
Theorem accept_expands_dollar_patterns :
  currentText dollarSession
  = lit "Fee: " ++ originalText findingDollar ++ lit "."
  /\ suggestedText findingDollar = lit "$$200"
  /\ selectedRisk (handleSelectRisk dollarSession (id findingDollar))
     = Some findingDollar
  /\ currentText (handleAcceptRisk dollarSession findingDollar)
     = lit "Fee: $200."
  /\ currentText (handleAcceptRisk dollarSession findingDollar)
     <> lit "Fee: " ++ suggestedText findingDollar ++ lit ".".
Proof.
  repeat split; try reflexivity. vm_compute. discriminate.
Qed.

(** C6: when the finding's original text does not occur in the current
    document text, accepting it leaves the text unchanged and still marks
    the finding resolved: the resulting state is the one that ignoring
    the finding gives. *)
Theorem accept_absent_original_only_resolves (st : State)
  (risk : RiskPoint) :
  ~ occursIn (originalText risk) (currentText st) ->
  currentText (handleAcceptRisk st risk) = currentText st /\
  handleAcceptRisk st risk = handleIgnoreRisk st (id risk) /\
  (forall r, In r (risks (handleAcceptRisk st risk)) ->
             id r = id risk -> isAddressed r = true) /\
  (In risk (risks st) ->
   In (markAddressed risk) (risks (handleAcceptRisk st risk))).
Proof.
  intros Habs. rewrite handleAcceptRisk_eq.
  rewrite (replace_absent _ Habs).
  split; [reflexivity|]. split; [|split].
  - unfold handleIgnoreRisk. now destruct st.
  - simpl. intros r. apply resolve_marks.
  - simpl. intros Hin. unfold resolve. apply in_map_iff.
    exists risk. now rewrite str_eqb_refl.
Qed.

(** C6, on the overlapping findings: once "abc" has been replaced by "x"
    the document is "xde" and "cde" is gone. *)
Lemma accept_absent_original_witness :
  currentText (handleAcceptRisk (handleAcceptRisk overlapSession findingAbc)
                                findingCde)
  = lit "xde".
Proof.
  pose proof (@accept_absent_original_only_resolves
                (handleAcceptRisk overlapSession findingAbc) findingCde) as H.
  destruct H as [H _].
  - apply indexOf_None_iff. reflexivity.
  - rewrite H. reflexivity.
Defined.

(** C2, the claim as written fails: after finding A has been accepted once
    on "Fee: $100. Late fee: $100." it is resolved, and accepting it again
    changes the document text (the second "$100" is replaced too). *)
Lemma reaccept_replaces_again :
  let st1 := handleAcceptRisk feeSession findingA in
  (forall r, In r (risks st1) -> id r = id findingA -> isAddressed r = true) /\
  In (markAddressed findingA) (risks st1) /\
  currentText st1 = lit "Fee: $200. Late fee: $100." /\
  currentText (handleAcceptRisk st1 (markAddressed findingA))
    = lit "Fee: $200. Late fee: $200." /\
  handleAcceptRisk st1 (markAddressed findingA) <> st1.
Proof.
  cbv zeta. repeat split.
  - intros r [<-|[]] _. reflexivity.
  - now left.
  - intros E. apply (f_equal currentText) in E. vm_compute in E. discriminate.
Qed.

(** After an accept or ignore call the selection is cleared, and it
    stays so along the calls that follow. *)
Lemma applyResolutions_closes acts : forall st,
  acts <> [] -> selectedRiskId (applyResolutions st acts) = None.
Proof.
  assert (K : forall l st, selectedRiskId st = None ->
                           selectedRiskId (applyResolutions st l) = None).
  { induction l as [|a l IH]; intros st H; [exact H|].
    simpl. apply IH. destruct a; simpl; [|reflexivity].
    now rewrite handleAcceptRisk_eq. }
  intros st H. destruct acts as [|a acts]; [now destruct H|].
  simpl. apply K. destruct a; simpl; [|reflexivity].
  now rewrite handleAcceptRisk_eq.
Qed.

(** C2, amended: along every sequence of accept and ignore calls each
    finding stays in place and is either unchanged or has its flag
    raised, so the flag goes from false to true at most once and is never
    reverted.  After such calls, on a finding id that is already
    resolved, ignoring again leaves the entire state (document text,
    finding list, selection) unchanged; accepting again leaves the
    finding list and the selection unchanged and runs the replacement on
    the document text once more, so the entire state is unchanged exactly
    when that replacement returns the text as it is, which it does
    whenever the original text no longer occurs in the document. *)
Theorem resolved_flag_monotone (st : State) (acts : list Resolution)
  (risk : RiskPoint) :
  let st' := applyResolutions st acts in
  acts <> [] ->
  (forall r, In r (risks st') -> id r = id risk -> isAddressed r = true) ->
  Forall2 flagRaised (risks st) (risks st') /\
  handleIgnoreRisk st' (id risk) = st' /\
  (risks (handleAcceptRisk st' risk) = risks st' /\
   selectedRiskId (handleAcceptRisk st' risk) = selectedRiskId st' /\
   currentText (handleAcceptRisk st' risk)
   = replace (currentText st') (originalText risk) (suggestedText risk)) /\
  handleAcceptRisk st' risk
  = setCurrentText
      (replace (currentText st') (originalText risk) (suggestedText risk))
      st' /\
  (handleAcceptRisk st' risk = st' <->
   replace (currentText st') (originalText risk) (suggestedText risk)
   = currentText st') /\
  (~ occursIn (originalText risk) (currentText st') ->
   handleAcceptRisk st' risk = st').
Proof.
  intros st' Hacts Hres.
  split; [apply applyResolutions_flagRaised|].
  assert (E : resolve (id risk) (risks st') = risks st')
    by now apply resolve_already_resolved.
  assert (S : selectedRiskId st' = None)
    by now apply applyResolutions_closes.
  assert (A : handleAcceptRisk st' risk
              = setCurrentText
                  (replace (currentText st') (originalText risk)
                           (suggestedText risk)) st').
  { rewrite handleAcceptRisk_eq, E. destruct st'; simpl in *. now subst. }
  split; [|split; [|split; [exact A|split]]].
  - unfold handleIgnoreRisk. rewrite E. destruct st'; simpl in *. now subst.
  - rewrite A. simpl. repeat split.
  - rewrite A. split.
    + intros H. apply (f_equal currentText) in H. exact H.
    + intros H. rewrite H. now destruct st'.
  - intros Habs. rewrite A, (replace_absent _ Habs). now destruct st'.
Qed.

Lemma resolved_flag_monotone_witness :
  handleIgnoreRisk (applyResolutions feeSession [Accept findingA])
                   (id findingA)
  = applyResolutions feeSession [Accept findingA].
Proof.
  pose proof (@resolved_flag_monotone feeSession [Accept findingA] findingA)
    as H.
  cbv zeta in H. apply H; [discriminate|].
  intros r [<-|[]] _. reflexivity.
Defined.

(** Through the drawer the handlers are reached for the selected finding
    only, and they close the drawer: a second click finds nothing to act
    on. *)
Lemma click_closes_drawer (st : State) :
  selectedRisk (clickAccept st) = None /\
  selectedRisk (clickIgnore st) = None /\
  clickAccept (clickAccept st) = clickAccept st /\
  clickIgnore (clickIgnore st) = clickIgnore st.
Proof.
  assert (Hnone : forall rs, find (isSelected None) rs = None)
    by (induction rs; simpl; auto).
  assert (Ha : selectedRisk (clickAccept st) = None).
  { unfold clickAccept. destruct (selectedRisk st) eqn:E; [|exact E].
    rewrite handleAcceptRisk_eq. apply Hnone. }
  assert (Hi : selectedRisk (clickIgnore st) = None).
  { unfold clickIgnore. destruct (selectedRisk st) eqn:E; [|exact E].
    apply Hnone. }
  repeat split; try assumption.
  - unfold clickAccept at 1. now rewrite Ha.
  - unfold clickIgnore at 1. now rewrite Hi.
Qed.

(* ===================================================================== *)
(** ** navigateRisk *)
(* ===================================================================== *)

Section NavigateFacts.

Context {A : Type} (f : A -> bool).

Lemma findIndex_range (l : list A) :
  findIndex f l = (-1)%Z \/
  (0 <= findIndex f l < Z.of_nat (length l))%Z.
Proof.
  induction l as [|x l IH]; simpl; [now left|].
  destruct (f x); [right; lia|].
  destruct (findIndex f l =? -1)%Z eqn:E; [now left|].
  apply Z.eqb_neq in E. right. lia.
Qed.

Lemma findIndex_none (l : list A) :
  (forall x, In x l -> f x = false) -> findIndex f l = (-1)%Z.
Proof.
  induction l as [|x l IH]; intros H; simpl; [reflexivity|].
  rewrite (H x) by now left.
  rewrite IH by (intros y Hy; apply H; now right). reflexivity.
Qed.

Lemma findIndex_at : forall (l : list A) i x,
  nth_error l i = Some x -> f x = true ->
  (forall j y, j < i -> nth_error l j = Some y -> f y = false) ->
  findIndex f l = Z.of_nat i.
Proof.
  induction l as [|a l IH]; intros i x Hnth Hx Hbefore.
  - now destruct i.
  - destruct i as [|i]; simpl in *.
    + injection Hnth as ->. now rewrite Hx.
    + rewrite (Hbefore 0 a) by (simpl; auto; lia).
      rewrite (IH i x Hnth Hx).
      * destruct (Z.of_nat i =? -1)%Z eqn:E; lia.
      * intros j y Hj Hy. apply (Hbefore (S j) y); [lia | exact Hy].
Qed.

End NavigateFacts.

Lemma filter_unresolved_In st r :
  In r (filter unresolved (risks st)) ->
  In r (risks st) /\ isAddressed r = false.
Proof.
  intros H. apply filter_In in H. destruct H as [H U]. split; [exact H|].
  unfold unresolved in U. now destruct (isAddressed r).
Qed.

(** C7: with the selection on the [i]-th unresolved finding, 'next'
    returns the state in which the selected id is the id of the
    unresolved finding at position [(i + 1) mod n], and 'prev' the state
    in which it is the id of the one at position [(i + n - 1) mod n], of
    the list of the [n] unresolved findings in list order; so the last
    wraps to the first and the first to the last.  Nothing but the
    selection changes.  With no finding selected, navigating changes
    nothing. *)
Theorem navigate_wraps_among_unresolved (st : State) (i : nat)
  (cur : RiskPoint) :
  let active := filter unresolved (risks st) in
  let n := length active in
  nth_error active i = Some cur ->
  selectedRiskId st = Some (id cur) ->
  (forall j r, j < i -> nth_error active j = Some r -> id r <> id cur) ->
  (exists target st',
      nth_error active ((i + 1) mod n) = Some target /\
      In target (risks st) /\ isAddressed target = false /\
      navigateRisk st next = Some st' /\
      selectedRiskId st' = Some (id target) /\
      st' = handleSelectRisk st (id target) /\
      currentText st' = currentText st /\ risks st' = risks st /\
      summary st' = summary st /\ loading st' = loading st /\
      loadingStep st' = loadingStep st /\ stance st' = stance st /\
      strictness st' = strictness st) /\
  (exists target st',
      nth_error active ((i + n - 1) mod n) = Some target /\
      In target (risks st) /\ isAddressed target = false /\
      navigateRisk st prev = Some st' /\
      selectedRiskId st' = Some (id target) /\
      st' = handleSelectRisk st (id target) /\
      currentText st' = currentText st /\ risks st' = risks st /\
      summary st' = summary st /\ loading st' = loading st /\
      loadingStep st' = loadingStep st /\ stance st' = stance st /\
      strictness st' = strictness st) /\
  (i + 1 = n -> (i + 1) mod n = 0) /\
  (i = 0 -> (i + n - 1) mod n = n - 1) /\
  (forall st0 direction,
      selectedRiskId st0 = None -> navigateRisk st0 direction = Some st0).
Proof.
  intros active n Hcur Hsel Hfirst.
  assert (Hi : i < n) by (apply nth_error_Some; congruence).
  assert (Hidx : findIndex (isSelected (selectedRiskId st)) active
                 = Z.of_nat i).
  { apply findIndex_at with cur; [exact Hcur| |].
    - rewrite Hsel. simpl. apply str_eqb_refl.
    - intros j y Hj Hy. rewrite Hsel. simpl. apply str_eqb_neq.
      now apply (Hfirst j y). }
  assert (Hget : forall k, k < n -> exists target,
             nth_error active k = Some target /\
             In target (risks st) /\ isAddressed target = false).
  { intros k Hk. destruct (nth_error active k) as [t|] eqn:E.
    - exists t. split; [reflexivity|]. apply filter_unresolved_In.
      now apply nth_error_In with k.
    - apply nth_error_None in E. fold n in E. lia. }
  split; [|split; [|split; [|split]]].
  - assert (Hk : (i + 1) mod n < n) by (apply Nat.mod_upper_bound; lia).
    destruct (Hget _ Hk) as (t & Ht & Hin & Hun).
    exists t, (handleSelectRisk st (id t)).
    assert (N : navigateRisk st next = Some (handleSelectRisk st (id t))).
    { unfold navigateRisk. fold active. rewrite Hidx.
      replace (Z.of_nat i =? -1)%Z with false by lia.
      fold n. destruct (Z.of_nat i + 1 >=? Z.of_nat n)%Z eqn:G.
      + assert (i + 1 = n) by lia.
        replace ((i + 1) mod n) with 0 in Ht
          by (replace (i + 1) with n by lia; now rewrite Nat.Div0.mod_same).
        replace (0 <? 0)%Z with false by reflexivity.
        change (Z.to_nat 0) with 0. now rewrite Ht.
      + replace (Z.of_nat i + 1 <? 0)%Z with false by lia.
        rewrite Nat.mod_small in Ht by lia.
        replace (Z.to_nat (Z.of_nat i + 1)) with (i + 1) by lia.
        now rewrite Ht. }
    repeat split; assumption.
  - assert (Hk : (i + n - 1) mod n < n) by (apply Nat.mod_upper_bound; lia).
    destruct (Hget _ Hk) as (t & Ht & Hin & Hun).
    exists t, (handleSelectRisk st (id t)).
    assert (N : navigateRisk st prev = Some (handleSelectRisk st (id t))).
    { unfold navigateRisk. fold active. rewrite Hidx.
      replace (Z.of_nat i =? -1)%Z with false by lia.
      fold n. replace (Z.of_nat i - 1 >=? Z.of_nat n)%Z with false by lia.
      destruct (Z.of_nat i - 1 <? 0)%Z eqn:G.
      + assert (i = 0) by lia. subst i.
        rewrite Nat.mod_small in Ht by lia.
        replace (Z.to_nat (Z.of_nat n - 1)) with (0 + n - 1) by lia.
        now rewrite Ht.
      + replace (i + n - 1) with ((i - 1) + 1 * n) in Ht by lia.
        rewrite Nat.Div0.mod_add, Nat.mod_small in Ht by lia.
        replace (Z.to_nat (Z.of_nat i - 1)) with (i - 1) by lia.
        now rewrite Ht. }
    repeat split; assumption.
  - intros E. rewrite E. apply Nat.Div0.mod_same.
  - intros E. subst i. apply Nat.mod_small. lia.
  - intros st0 direction H0. unfold navigateRisk. rewrite H0.
    rewrite findIndex_none by reflexivity. reflexivity.
Qed.

(** C10: when no unresolved finding has the selected id (nothing is
    selected, or the selected finding is resolved), navigating leaves the
    state, and so the selection, unchanged. *)
Theorem navigate_noop_when_selection_resolved (st : State)
  (direction : Direction) :
  (forall r, In r (risks st) -> isAddressed r = false ->
             selectedRiskId st <> Some (id r)) ->
  navigateRisk st direction = Some st.
Proof.
  intros H. unfold navigateRisk. rewrite findIndex_none; [reflexivity|].
  intros r Hr. apply filter_unresolved_In in Hr. destruct Hr as [Hin Hun].
  specialize (H r Hin Hun). unfold isSelected.
  destruct (selectedRiskId st) as [s|]; [|reflexivity].
  apply str_eqb_neq. congruence.
Qed.

(* ===================================================================== *)
(** ** analyzeContractRisks and handleAnalyze *)
(* ===================================================================== *)

Section IdFacts.

Local Abbreviation dash := "-"%char.

Lemma uint_digits_no_dash d :
  ~ In dash (String.list_ascii_of_string (NilEmpty.string_of_uint d)).
Proof.
  induction d; simpl; intros H; try (destruct H as [H|H];
    [discriminate | now apply IHd]); exact H.
Qed.

Lemma indexToString_no_dash n : ~ In dash (indexToString n).
Proof.
  unfold indexToString, NilZero.string_of_uint.
  destruct (Nat.to_uint n) eqn:E; try (rewrite <- E; clear E);
    try apply uint_digits_no_dash.
  simpl. intros [H|[]]. discriminate.
Qed.

Lemma parseIndex_indexToString n : parseIndex (indexToString n) = Some n.
Proof.
  unfold parseIndex, indexToString.
  rewrite String.string_of_list_ascii_of_string.
  pose proof (DecimalNat.Unsigned.of_to n) as E.
  destruct (Nat.to_uint n) eqn:D;
    try (rewrite NilZero.usu by discriminate; simpl option_map;
         now rewrite E).
  simpl. now rewrite <- E.
Qed.

Lemma indexToString_inj a b : indexToString a = indexToString b -> a = b.
Proof.
  intros H. apply (f_equal parseIndex) in H.
  rewrite !parseIndex_indexToString in H. now injection H.
Qed.

(** Two texts that agree up to and after their first dash agree before
    it. *)
Lemma cut_at_first_dash : forall a b x y,
  ~ In dash a -> ~ In dash b ->
  a ++ dash :: x = b ++ dash :: y -> a = b.
Proof.
  induction a as [|c a IH]; intros [|d b] x y Ha Hb E; simpl in E.
  - reflexivity.
  - injection E as E _. exfalso. apply Hb. now left.
  - injection E as E _. exfalso. apply Ha. now left.
  - injection E as -> E. f_equal. apply (IH b x y); auto.
    + intros F. apply Ha. now right.
    + intros F. apply Hb. now right.
Qed.

Lemma idTemplate_inj i t j t' : idTemplate i t = idTemplate j t' -> i = j.
Proof.
  unfold idTemplate. intros E. apply app_inv_head in E.
  apply indexToString_inj.
  apply (cut_at_first_dash _ _ (timeToString t) (timeToString t'));
    [apply indexToString_no_dash | apply indexToString_no_dash | exact E].
Qed.

Lemma idTemplate_not_empty i t : idTemplate i t <> [].
Proof. discriminate. Qed.

Variable clock : nat -> Z.

Lemma mapIndexedFrom_ids raws : forall k r,
  In r (mapIndexedFrom (stamp clock) k raws) ->
  exists j, k <= j /\ id r = idTemplate j (clock j).
Proof.
  induction raws as [|x raws IH]; intros k r; simpl; [intros []|].
  intros [<-|H].
  - exists k. split; [lia | reflexivity].
  - destruct (IH _ _ H) as (j & Hj & E). exists j. split; [lia | exact E].
Qed.

Lemma mapIndexedFrom_NoDup raws : forall k,
  NoDup (map id (mapIndexedFrom (stamp clock) k raws)).
Proof.
  induction raws as [|x raws IH]; intros k; simpl; constructor.
  - intros H. apply in_map_iff in H. destruct H as (r & E & Hr).
    apply mapIndexedFrom_ids in Hr. destruct Hr as (j & Hj & Ej).
    rewrite Ej in E. apply idTemplate_inj in E. lia.
  - apply IH.
Qed.

Lemma mapIndexedFrom_unresolved raws : forall k,
  Forall (fun r => isAddressed r = false)
         (mapIndexedFrom (stamp clock) k raws).
Proof. induction raws; intros k; simpl; constructor; auto. Qed.

Lemma mapIndexedFrom_length {A B} (f : A -> nat -> B) l : forall k,
  length (mapIndexedFrom f k l) = length l.
Proof. induction l; intros k; simpl; auto. Qed.

End IdFacts.

(** C8: the finding list that a successful analysis puts in the session
    has one finding per returned record, all with resolved = false and
    with pairwise distinct ids. *)
Theorem analysis_findings_fresh (contract : ContractData)
  (nowId nowStamp : Z) (clock : nat -> Z) (st : State)
  (rawRisks : list RawRisk) :
  let st' := fst (requestAnalysis contract nowId nowStamp clock st
                                  (Parsed rawRisks)) in
  risks st' = mapIndexed (stamp clock) rawRisks /\
  length (risks st') = length rawRisks /\
  Forall (fun r => isAddressed r = false) (risks st') /\
  NoDup (map id (risks st')).
Proof.
  simpl. unfold mapIndexed. repeat split.
  - apply mapIndexedFrom_length.
  - apply mapIndexedFrom_unresolved.
  - apply mapIndexedFrom_NoDup.
Qed.

(** The handler itself, when the awaited promise rejects, keeps the
    finding list and the document text and raises the alert. *)
Lemma handleAnalyze_rejected (contract : ContractData) (nowId nowStamp : Z)
  (st : State) (why : str) :
  let out := handleAnalyze contract nowId nowStamp st (RejectedWith why) in
  risks (fst out) = risks st /\
  currentText (fst out) = currentText st /\
  In AlertAnalysisFailed (snd out).
Proof. simpl. repeat split. right. now left. Qed.

(** The promise of analyzeContractRisks is always fulfilled. *)
Lemma analyzeContractRisks_never_rejects (clock : nat -> Z)
  (response : AnalyzerResponse) :
  exists found,
    fst (analyzeContractRisks clock response) = Fulfilled found.
Proof. destruct response; simpl; eauto. Qed.

(** Whatever the session, a failed analyzer call and an analysis that
    found nothing give the same state and the same effects, but for the
    line the service writes to the console. *)
Lemma failed_analysis_as_empty (contract : ContractData) (nowId nowStamp : Z)
  (clock : nat -> Z) (st : State) (response : AnalyzerResponse) :
  response = CallRejected \/ response = Unparsable ->
  let failed := requestAnalysis contract nowId nowStamp clock st response in
  let nothing :=
    requestAnalysis contract nowId nowStamp clock st (Parsed []) in
  fst failed = fst nothing /\
  snd failed = ServiceLog RiskAnalysisFailed :: snd nothing /\
  risks (fst failed) = [].
Proof. intros [-> | ->]; repeat split. Qed.

(** The atomic handler is the handler across its await with nothing
    arriving meanwhile and a save callback that returns. *)
Lemma handleAnalyze_as_settled (contract : ContractData)
  (nowId nowStamp : Z) (st : State) (outcome : Settled (list RiskPoint)) :
  handleAnalyze contract nowId nowStamp st outcome
  = handleAnalyzeSettled contract nowId nowStamp
      (loadingStarted st) (loadingStarted st) outcome false.
Proof. destruct outcome; reflexivity. Qed.

(** C1 (the code departs from the claim): the review screen has just
    been mounted on the fee document (no finding, not loading), the
    analyse button is clicked and the analyzer call fails.  The finding
    list and the document text are unchanged (the whole state is), but
    nothing tells the failure from an analysis that found no risk: no
    alert is raised, a session without findings is saved, and state and
    effects are those of the empty success but for the line the service
    writes to the console.  The same holds across the await, whatever
    the state the setters meet and whether or not the save callback
    throws. *)
Theorem failed_analysis_raises_no_alert :
  let contract := mkContract feeDoc in
  let st := mount contract None in
  let failed := requestAnalysis contract 1 2 clock0 st CallRejected in
  let nothing := requestAnalysis contract 1 2 clock0 st (Parsed []) in
  (risks st = [] /\ loading st = false /\
   clickAnalyze contract 1 2 clock0 CallRejected st = fst failed) /\
  (fst failed = st /\ risks (fst failed) = risks st /\
   currentText (fst failed) = currentText st) /\
  ~ In AlertAnalysisFailed (snd failed) /\
  (exists s, In (SaveSession s) (snd failed) /\ session_risks s = []) /\
  fst failed = fst nothing /\
  snd failed = ServiceLog RiskAnalysisFailed :: snd nothing /\
  (forall c nowId nowStamp clock clicked current saveThrows response,
     response = CallRejected \/ response = Unparsable ->
     let failed' := requestAnalysisSettled c nowId nowStamp clock clicked
                      current response saveThrows in
     let nothing' := requestAnalysisSettled c nowId nowStamp clock clicked
                       current (Parsed []) saveThrows in
     fst failed' = fst nothing' /\
     snd failed' = ServiceLog RiskAnalysisFailed :: snd nothing').
Proof.
  cbv zeta. repeat split.
  - intros [H|[H|[]]]; discriminate.
  - eexists. split; [right; left; reflexivity | reflexivity].
  - destruct H as [-> | ->]; now destruct saveThrows.
  - destruct H as [-> | ->]; now destruct saveThrows.
Qed.

(* ===================================================================== *)
(** ** The theorems at work on the scenarios *)
(* ===================================================================== *)



Lemma navigate_wraps_witness :
  (exists st', navigateRisk onGamma next = Some st' /\
               selectedRiskId st' = Some (id findingAlpha)) /\
  (exists st', navigateRisk onGamma prev = Some st' /\
               selectedRiskId st' = Some (id findingAlpha)).
Proof.
  assert (Hfirst : forall j r, j < 1 ->
            nth_error (filter unresolved (risks onGamma)) j = Some r ->
            id r <> id findingGamma).
  { intros j r Hj Hr. destruct j; [|lia].
    vm_compute in Hr. injection Hr as <-. vm_compute. discriminate. }
  destruct (@navigate_wraps_among_unresolved onGamma 1 findingGamma
              eq_refl eq_refl Hfirst)
    as ((t1 & s1 & Ht1 & _ & _ & N1 & S1 & _) &
        (t2 & s2 & Ht2 & _ & _ & N2 & S2 & _) & _).
  vm_compute in Ht1. injection Ht1 as <-.
  vm_compute in Ht2. injection Ht2 as <-.
  split; [exists s1 | exists s2]; split; assumption.
Defined.

Lemma navigate_noop_witness :
  navigateRisk onIgnoredBeta next = Some onIgnoredBeta.
Proof.
  apply navigate_noop_when_selection_resolved.
  intros r Hr Hun.
  destruct Hr as [<-|[<-|[<-|[]]]]; vm_compute; discriminate.
Defined.

(* ===================================================================== *)
(** ** More on the rendering: what is and what is not highlighted *)
(* ===================================================================== *)

Section RenderMore.

(** A split into several pieces found the separator. *)
Lemma split_many_occurs s sep :
  (1 <? length (split s sep)) = true -> occursIn sep s.
Proof.
  intros L. pose proof (split_join s sep) as J. apply Nat.ltb_lt in L.
  destruct (split s sep) as [|x [|y rest]]; simpl in L; try lia.
  rewrite joinWith_cons in J by discriminate.
  now exists x, (joinWith sep (y :: rest)).
Qed.

Lemma splitPart_absent risk part :
  ~ occursIn (originalText risk) (text part) -> splitPart risk part = [part].
Proof.
  intros H. unfold splitPart. destruct (attributed part); [reflexivity|].
  destruct (1 <? _) eqn:L; [|reflexivity].
  now apply split_many_occurs in L.
Qed.

Lemma flat_map_singleton {A} (f : A -> list A) (l : list A) :
  (forall x, In x l -> f x = [x]) -> flat_map f l = l.
Proof.
  induction l as [|a l IH]; intros H; simpl; [reflexivity|].
  rewrite (H a) by now left. simpl. f_equal.
  apply IH. intros x Hx. apply H. now right.
Qed.

(** A pass for a finding whose original text is nowhere in the joined
    text changes nothing. *)
Lemma splitPass_absent risk parts :
  ~ occursIn (originalText risk) (renderedText parts) ->
  splitPass parts risk = parts.
Proof.
  intros H. unfold splitPass. apply flat_map_singleton.
  intros p Hp. apply splitPart_absent. intros Ho. apply H.
  apply occursIn_trans with (text p); [exact Ho|].
  now apply In_renderedText.
Qed.

Lemma fold_splitPass_plain_empty rs :
  fold_left splitPass rs [plain []] = [plain []].
Proof.
  induction rs as [|r rs IH]; [reflexivity|]. cbn [fold_left].
  replace (splitPass [plain []] r) with [plain []]; [exact IH|].
  unfold splitPass, splitPart. simpl.
  destruct (originalText r); reflexivity.
Qed.

End RenderMore.

(** X4: a finding that has just been ignored or accepted is no longer
    highlighted: no fragment of the rendering carries its id. *)
Theorem resolved_finding_not_highlighted (st : State) (risk : RiskPoint)
  (p : Part) :
  (In p (renderDocumentContent (handleIgnoreRisk st (id risk))) ->
   riskId p <> Some (id risk)) /\
  (In p (renderDocumentContent (handleAcceptRisk st risk)) ->
   riskId p <> Some (id risk)).
Proof.
  assert (K : forall st', risks st' = resolve (id risk) (risks st) ->
            In p (renderDocumentContent st') -> riskId p <> Some (id risk)).
  { intros st' E Hp Hid. unfold renderDocumentContent in Hp.
    destruct (@fold_splitPass_spans
                (fun r => In r (risks st') /\ isAddressed r = false)
                (filter unresolved (risks st'))
                [plain (currentText st')]) with (p := p) (i := id risk)
      as (r & (Hr & Hun) & ->); try assumption.
    - apply Forall_forall. intros r Hr. now apply filter_unresolved_In.
    - intros q i [<-|[]] Hq. discriminate.
    - simpl in Hid. injection Hid as Hid. rewrite E in Hr.
      apply resolve_marks in Hr; [congruence | exact Hid]. }
  split; apply K; [reflexivity|]. now rewrite handleAcceptRisk_eq.
Qed.

(** X5: a finding whose original text does not occur in the document is
    inert: the rendering is the one obtained without it. *)
Theorem unmatched_finding_is_inert (st : State)
  (earlier later : list RiskPoint) (risk : RiskPoint) :
  risks st = earlier ++ risk :: later ->
  ~ occursIn (originalText risk) (currentText st) ->
  renderDocumentContent st
  = renderDocumentContent (setRisks (earlier ++ later) st).
Proof.
  intros E Habs. unfold renderDocumentContent. rewrite E. simpl.
  rewrite !filter_app. simpl.
  destruct (unresolved risk); [|reflexivity].
  rewrite !fold_left_app. simpl. f_equal.
  apply splitPass_absent. rewrite fold_splitPass_text.
  unfold renderedText. simpl. now rewrite app_nil_r.
Qed.

Lemma unmatched_finding_witness :
  renderDocumentContent (handleSelectRisk
     (setCurrentText (lit "xde") overlapSession) (id findingCde))
  = [plain (lit "xde")].
Proof.
  rewrite (@unmatched_finding_is_inert _ [] [findingCde] findingAbc).
  - rewrite (@unmatched_finding_is_inert _ [] [] findingCde).
    + reflexivity.
    + reflexivity.
    + apply indexOf_None_iff. reflexivity.
  - reflexivity.
  - apply indexOf_None_iff. reflexivity.
Defined.

(** X6: an empty document is rendered as one empty plain fragment,
    whatever the findings (empty original texts included). *)
Theorem empty_document_single_fragment (st : State) :
  currentText st = [] -> renderDocumentContent st = [plain []].
Proof.
  intros E. unfold renderDocumentContent. rewrite E.
  apply fold_splitPass_plain_empty.
Qed.

Lemma empty_document_witness :
  renderDocumentContent (setCurrentText [] feeSession) = [plain []].
Proof. apply empty_document_single_fragment. reflexivity. Defined.

(** X7: when no finding is unresolved (none found yet, all handled, or
    after a restart) the whole text is one plain fragment, the drawer's
    navigation changes nothing and no level shows a pending finding. *)
Theorem nothing_pending_nothing_highlighted (st : State)
  (direction : Direction) :
  activeCount st = 0 ->
  renderDocumentContent st = [plain (currentText st)] /\
  navigateRisk st direction = Some st /\
  (forall idx, clickPart st idx = st) /\
  (forall lv, levelCount lv st = 0).
Proof.
  unfold activeCount. intros H. apply length_zero_iff_nil in H.
  assert (R : renderDocumentContent st = [plain (currentText st)])
    by (unfold renderDocumentContent; now rewrite H).
  split; [exact R|]. split; [|split].
  - unfold navigateRisk. now rewrite H.
  - intros idx. unfold clickPart. rewrite R.
    destruct idx as [|[|idx]]; reflexivity.
  - intros lv. unfold levelCount.
    assert (F : forall r, In r (risks st) -> unresolved r = false).
    { intros r Hr. destruct (unresolved r) eqn:U; [|reflexivity].
      assert (In r (filter unresolved (risks st)))
        by (apply filter_In; auto).
      rewrite H in *. contradiction. }
    clear H R. induction (risks st) as [|a l IH]; [reflexivity|].
    simpl. pose proof (F a (or_introl eq_refl)) as Fa.
    unfold unresolved in Fa. rewrite Fa, andb_false_r.
    apply IH. intros r Hr. apply F. now right.
Qed.

Lemma nothing_pending_witness :
  renderDocumentContent (handleIgnoreRisk feeSession (id findingA))
  = [plain feeDoc].
Proof.
  destruct (@nothing_pending_nothing_highlighted
              (handleIgnoreRisk feeSession (id findingA)) next eq_refl)
    as [H _].
  exact H.
Defined.

(* ===================================================================== *)
(** ** The dashboard's numbers *)
(* ===================================================================== *)

(** X8: the numbers of the dashboard add up: the pending findings of the
    three levels are all the pending findings, and handled plus pending
    findings are all the findings. *)
Theorem dashboard_counts_add_up (st : State) :
  levelCount HIGH st + levelCount MEDIUM st + levelCount LOW st
  = activeCount st /\
  addressedCount st + activeCount st = totalCount st.
Proof.
  unfold levelCount, activeCount, addressedCount, totalCount, unresolved.
  induction (risks st) as [|r rs [IH1 IH2]]; [split; reflexivity|].
  simpl. destruct (isAddressed r), (level r); simpl; split; lia.
Qed.

Section CountFacts.

Lemma resolve_other_id x rs :
  ~ In x (map id rs) -> resolve x rs = rs.
Proof.
  intros H. apply resolve_already_resolved. intros r Hr E.
  exfalso. apply H. rewrite <- E. now apply in_map.
Qed.

Lemma resolve_ids x rs : map id (resolve x rs) = map id rs.
Proof.
  unfold resolve. rewrite map_map. apply map_ext.
  intros r. now destruct (str_eqb (id r) x).
Qed.

(** With distinct ids, resolving a pending finding takes exactly that
    one out of the pending ones. *)
Lemma resolve_counts rs : forall risk,
  NoDup (map id rs) -> In risk rs -> isAddressed risk = false ->
  S (length (filter unresolved (resolve (id risk) rs)))
  = length (filter unresolved rs) /\
  length (filter isAddressed (resolve (id risk) rs))
  = S (length (filter isAddressed rs)).
Proof.
  induction rs as [|a rs IH]; intros risk Hnd Hin Hun; [destruct Hin|].
  simpl in Hnd. inversion Hnd as [|? ? Ha Hrs]; subst.
  change (resolve (id risk) (a :: rs))
    with ((if str_eqb (id a) (id risk) then markAddressed a else a)
          :: resolve (id risk) rs).
  destruct (str_eqb (id a) (id risk)) eqn:E.
  - apply str_eqb_eq in E.
    assert (a = risk).
    { destruct Hin as [H|H]; [exact H|]. exfalso. apply Ha.
      rewrite E. now apply in_map. }
    subst a. rewrite resolve_other_id by exact Ha.
    simpl. unfold unresolved at 2. rewrite Hun. simpl. auto.
  - apply str_eqb_neq in E.
    destruct Hin as [H|H]; [subst; now destruct E|].
    destruct (IH risk Hrs H Hun) as [I1 I2].
    simpl.
    assert (U : unresolved a = negb (isAddressed a)) by reflexivity.
    rewrite U. destruct (isAddressed a); simpl; split; lia.
Qed.

End CountFacts.

(** X9: with distinct ids, ignoring or accepting a pending finding of the
    list lowers the number of pending findings by exactly one and raises
    the number of handled findings by one. *)
Theorem resolving_counts_one (st : State) (risk : RiskPoint) :
  NoDup (map id (risks st)) -> In risk (risks st) ->
  isAddressed risk = false ->
  (S (activeCount (handleIgnoreRisk st (id risk))) = activeCount st /\
   addressedCount (handleIgnoreRisk st (id risk))
   = S (addressedCount st)) /\
  (S (activeCount (handleAcceptRisk st risk)) = activeCount st /\
   addressedCount (handleAcceptRisk st risk) = S (addressedCount st)).
Proof.
  intros Hnd Hin Hun. rewrite handleAcceptRisk_eq.
  unfold activeCount, addressedCount. simpl.
  split; now apply resolve_counts.
Qed.

Lemma resolving_counts_witness :
  S (activeCount (handleIgnoreRisk threeSession (id findingBeta))) = 3.
Proof.
  assert (Hnd : NoDup (map id (risks threeSession))).
  { vm_compute. repeat constructor; simpl; intuition discriminate. }
  assert (Hin : In findingBeta (risks threeSession))
    by (right; now left).
  destruct (@resolving_counts_one threeSession findingBeta Hnd Hin eq_refl)
    as [[H _] _].
  rewrite H. reflexivity.
Defined.

(* ===================================================================== *)
(** ** Navigation: bounds and round trips *)
(* ===================================================================== *)

Section NavigateMore.

Lemma navTarget_lt direction i n : i < n -> navTarget direction i n < n.
Proof.
  intros H. destruct direction; unfold navTarget.
  - destruct (Nat.eqb_spec (S i) n); lia.
  - destruct (Nat.eqb_spec i 0); lia.
Qed.

(** From the position found, navigateRisk selects the finding at the
    target position. *)
Lemma navigateRisk_from_index st direction i :
  let active := filter unresolved (risks st) in
  findIndex (isSelected (selectedRiskId st)) active = Z.of_nat i ->
  i < length active ->
  navigateRisk st direction
  = option_map (fun r => handleSelectRisk st (id r))
      (nth_error active (navTarget direction i (length active))).
Proof.
  intros active Hidx Hi. unfold navigateRisk. fold active. rewrite Hidx.
  replace (Z.of_nat i =? -1)%Z with false by lia.
  destruct direction; unfold navTarget.
  - destruct (Nat.eqb_spec (S i) (length active)) as [E|E].
    + replace (Z.of_nat i + 1 >=? Z.of_nat (length active))%Z
        with true by lia.
      replace (0 <? 0)%Z with false by reflexivity.
      change (Z.to_nat 0) with 0. now destruct (nth_error active 0).
    + replace (Z.of_nat i + 1 >=? Z.of_nat (length active))%Z
        with false by lia.
      replace (Z.of_nat i + 1 <? 0)%Z with false by lia.
      replace (Z.to_nat (Z.of_nat i + 1)) with (S i) by lia.
      now destruct (nth_error active (S i)).
  - replace (Z.of_nat i - 1 >=? Z.of_nat (length active))%Z
      with false by lia.
    destruct (Nat.eqb_spec i 0) as [E|E].
    + replace (Z.of_nat i - 1 <? 0)%Z with true by lia.
      replace (Z.to_nat (Z.of_nat (length active) - 1))
        with (length active - 1) by lia.
      now destruct (nth_error active (length active - 1)).
    + replace (Z.of_nat i - 1 <? 0)%Z with false by lia.
      replace (Z.to_nat (Z.of_nat i - 1)) with (i - 1) by lia.
      now destruct (nth_error active (i - 1)).
Qed.

(** navigateRisk either leaves the state alone or selects an unresolved
    finding; it never reads past the list. *)
Lemma navigateRisk_cases st direction :
  navigateRisk st direction = Some st \/
  exists r, In r (filter unresolved (risks st)) /\
            navigateRisk st direction = Some (handleSelectRisk st (id r)).
Proof.
  set (active := filter unresolved (risks st)).
  destruct (findIndex_range (isSelected (selectedRiskId st)) active)
    as [E|[Lo Hi]].
  - left. unfold navigateRisk. fold active. now rewrite E.
  - right.
    set (i := Z.to_nat (findIndex (isSelected (selectedRiskId st)) active)).
    assert (Hi' : i < length active) by (unfold i; lia).
    pose proof (navTarget_lt direction Hi') as T.
    destruct (nth_error active (navTarget direction i (length active)))
      as [r|] eqn:N; [|apply nth_error_None in N; lia].
    exists r. split; [now apply nth_error_In in N|].
    rewrite (@navigateRisk_from_index st direction i);
      fold active; [now rewrite N | unfold i; lia | exact Hi'].
Qed.

Lemma NoDup_map_filter {A B} (g : A -> B) (f : A -> bool) (l : list A) :
  NoDup (map g l) -> NoDup (map g (filter f l)).
Proof.
  induction l as [|a l IH]; intros H; simpl; [constructor|].
  inversion H as [|? ? Ha Hl]; subst. destruct (f a); simpl; auto.
  constructor; auto. intros F. apply Ha. apply in_map_iff in F.
  destruct F as (x & E & Hx). apply filter_In in Hx.
  rewrite <- E. apply in_map. tauto.
Qed.

(** With distinct ids the position of the selection is the position of
    the selected finding. *)
Lemma findIndex_selected (l : list RiskPoint) i cur :
  NoDup (map id l) -> nth_error l i = Some cur ->
  findIndex (isSelected (Some (id cur))) l = Z.of_nat i.
Proof.
  intros Hnd Hcur. apply findIndex_at with cur; [exact Hcur| |].
  - simpl. apply str_eqb_refl.
  - intros j y Hj Hy. simpl. apply str_eqb_neq. intros E.
    assert (j = i); [|lia].
    apply (proj1 (NoDup_nth_error (map id l)) Hnd).
    + rewrite length_map. apply nth_error_Some. congruence.
    + rewrite (map_nth_error id _ _ Hy), (map_nth_error id _ _ Hcur).
      now rewrite E.
Qed.

Lemma select_back st cur :
  selectedRiskId st = Some (id cur) ->
  forall other, handleSelectRisk (handleSelectRisk st other) (id cur) = st.
Proof. intros H other. destruct st; simpl in *. now rewrite H. Qed.

End NavigateMore.

(** X3: navigateRisk never fails: whatever the state and the direction it
    returns a state, which is the given one or the given one with an
    unresolved finding of the list selected; document text and findings
    are never touched. *)
Theorem navigate_never_out_of_range (st : State) (direction : Direction) :
  exists st',
    navigateRisk st direction = Some st' /\
    currentText st' = currentText st /\ risks st' = risks st /\
    (st' = st \/
     exists r, In r (risks st) /\ isAddressed r = false /\
               selectedRiskId st' = Some (id r)).
Proof.
  destruct (navigateRisk_cases st direction) as [E|(r & Hr & E)].
  - exists st. repeat split; auto.
  - exists (handleSelectRisk st (id r)). repeat split; auto.
    right. exists r. apply filter_unresolved_In in Hr. tauto.
Qed.

(** X2: with distinct ids and the selection on an unresolved finding,
    next followed by prev, and prev followed by next, give the state
    back. *)
Theorem navigate_round_trip (st : State) (i : nat) (cur : RiskPoint) :
  NoDup (map id (risks st)) ->
  nth_error (filter unresolved (risks st)) i = Some cur ->
  selectedRiskId st = Some (id cur) ->
  (exists st1, navigateRisk st next = Some st1 /\
               navigateRisk st1 prev = Some st) /\
  (exists st1, navigateRisk st prev = Some st1 /\
               navigateRisk st1 next = Some st).
Proof.
  intros Hnd Hcur Hsel.
  set (active := filter unresolved (risks st)) in *.
  assert (HndA : NoDup (map id active)) by now apply NoDup_map_filter.
  assert (Hi : i < length active) by (apply nth_error_Some; congruence).
  assert (Hidx : findIndex (isSelected (selectedRiskId st)) active
                 = Z.of_nat i)
    by (rewrite Hsel; now apply findIndex_selected).
  assert (Step : forall d d', navTarget d' (navTarget d i (length active))
                                (length active) = i ->
            exists st1, navigateRisk st d = Some st1 /\
                        navigateRisk st1 d' = Some st).
  { intros d d' Back.
    pose proof (navTarget_lt d Hi) as T.
    destruct (nth_error active (navTarget d i (length active)))
      as [t|] eqn:N; [|apply nth_error_None in N; lia].
    exists (handleSelectRisk st (id t)). split.
    - rewrite (@navigateRisk_from_index st d i Hidx Hi).
      fold active. now rewrite N.
    - rewrite (@navigateRisk_from_index (handleSelectRisk st (id t)) d'
                 (navTarget d i (length active))); simpl risks; fold active.
      + rewrite Back, Hcur. simpl. f_equal. now apply select_back.
      + simpl. now apply findIndex_selected.
      + exact T. }
  split; apply Step; unfold navTarget.
  - destruct (Nat.eqb_spec (S i) (length active)) as [E|E].
    + replace (0 =? 0) with true by reflexivity. lia.
    + replace (S i =? 0) with false by reflexivity. lia.
  - destruct (Nat.eqb_spec i 0) as [E|E].
    + destruct (Nat.eqb_spec (S (length active - 1)) (length active)); lia.
    + destruct (Nat.eqb_spec (S (i - 1)) (length active)); lia.
Qed.

Lemma navigate_round_trip_witness :
  exists st1, navigateRisk onGamma next = Some st1 /\
              navigateRisk st1 prev = Some onGamma.
Proof.
  assert (Hnd : NoDup (map id (risks onGamma))).
  { vm_compute. repeat constructor; simpl; intuition discriminate. }
  exact (proj1 (@navigate_round_trip onGamma 1 findingGamma
                  Hnd eq_refl eq_refl)).
Defined.

(* ===================================================================== *)
(** ** The review screen along its events *)
(* ===================================================================== *)

Section ScreenFacts.

Lemma render_text_of_state st :
  renderedText (renderDocumentContent st) = currentText st.
Proof.
  unfold renderDocumentContent. rewrite fold_splitPass_text.
  unfold renderedText. simpl. apply app_nil_r.
Qed.

Lemma selectedRisk_In st r : selectedRisk st = Some r -> In r (risks st).
Proof. unfold selectedRisk. intros H. now apply find_some in H. Qed.

Lemma selectedRisk_none st :
  selectedRiskId st = None -> selectedRisk st = None.
Proof.
  unfold selectedRisk. intros ->. induction (risks st); simpl; auto.
Qed.

(** With distinct ids, selecting the id of a finding of the list puts
    that finding in the drawer. *)
Lemma find_selected_unique rs r :
  NoDup (map id rs) -> In r rs ->
  find (isSelected (Some (id r))) rs = Some r.
Proof.
  induction rs as [|a rs IH]; intros Hnd Hin; [destruct Hin|].
  simpl in Hnd. inversion Hnd as [|? ? Ha Hrs]; subst. simpl.
  destruct (str_eqb (id a) (id r)) eqn:E.
  - apply str_eqb_eq in E. destruct Hin as [->|Hin]; [reflexivity|].
    exfalso. apply Ha. rewrite E. now apply in_map.
  - apply str_eqb_neq in E.
    destruct Hin as [->|Hin]; [now destruct E | now apply IH].
Qed.

Lemma resolve_wellFormed x rs :
  wellFormedFindings rs -> wellFormedFindings (resolve x rs).
Proof.
  intros [Hnd Hid]. split.
  - now rewrite resolve_ids.
  - rewrite Forall_forall in *. intros r Hr. unfold resolve in Hr.
    apply in_map_iff in Hr. destruct Hr as (r0 & <- & Hr0).
    specialize (Hid r0 Hr0). now destruct (str_eqb (id r0) x).
Qed.

Lemma stamped_wellFormed clock raws :
  wellFormedFindings (mapIndexed (stamp clock) raws).
Proof.
  split; [apply mapIndexedFrom_NoDup|].
  apply Forall_forall. intros r Hr. apply mapIndexedFrom_ids in Hr.
  destruct Hr as (j & _ & ->). discriminate.
Qed.

(** The findings that an analysis leaves in the session. *)
Lemma requestAnalysis_risks contract nowId nowStamp clock st response :
  let found := risks (fst (requestAnalysis contract nowId nowStamp clock
                                           st response)) in
  wellFormedFindings found /\
  Forall (fun r => isAddressed r = false) found.
Proof.
  destruct response; simpl.
  - split; [split|]; constructor.
  - split; [split|]; constructor.
  - split; [apply stamped_wellFormed | apply mapIndexedFrom_unresolved].
Qed.

Lemma all_unresolved_invariant st :
  wellFormedFindings (risks st) ->
  Forall (fun r => isAddressed r = false) (risks st) ->
  screenInvariant st.
Proof.
  intros W U. split; [exact W|]. intros r Hr.
  apply selectedRisk_In in Hr. rewrite Forall_forall in U. now apply U.
Qed.

Lemma closed_drawer_invariant st :
  wellFormedFindings (risks st) -> selectedRiskId st = None ->
  screenInvariant st.
Proof.
  intros W S. split; [exact W|]. intros r Hr.
  rewrite selectedRisk_none in Hr by exact S. discriminate.
Qed.

(** Selecting the id of an unresolved finding keeps the invariant. *)
Lemma select_unresolved_invariant st r :
  screenInvariant st -> In r (risks st) -> isAddressed r = false ->
  screenInvariant (handleSelectRisk st (id r)).
Proof.
  intros [W _] Hin Hun. split; [exact W|]. intros r' Hr'.
  unfold selectedRisk in Hr'. simpl in Hr'.
  rewrite find_selected_unique in Hr' by (try apply W; assumption).
  now injection Hr' as <-.
Qed.

(** A fragment with a truthy riskId is the span of an unresolved
    finding of the list. *)
Lemma attributed_part_is_span st part :
  In part (renderDocumentContent st) -> attributed part = true ->
  exists r, In r (risks st) /\ isAddressed r = false /\ part = span r.
Proof.
  intros Hp Ha. unfold attributed in Ha.
  destruct (riskId part) as [i|] eqn:Hi; [|discriminate].
  destruct (@fold_splitPass_spans
              (fun r => In r (risks st) /\ isAddressed r = false)
              (filter unresolved (risks st))
              [plain (currentText st)]) with (p := part) (i := i)
    as (r & (Hr & Hun) & E); try assumption.
  - apply Forall_forall. intros r Hr. now apply filter_unresolved_In.
  - intros q j [<-|[]] Hq. discriminate.
  - now exists r.
Qed.

Lemma step_invariant st e :
  eventOk e -> screenInvariant st -> screenInvariant (step st e).
Proof.
  intros Hok Inv. destruct e; simpl.
  - (* Load *)
    destruct initialSession as [s|]; simpl.
    + destruct Hok as [W U]. now apply all_unresolved_invariant.
    + apply closed_drawer_invariant; [|reflexivity].
      split; constructor.
  - (* SummaryArrived *) exact Inv.
  - (* AnalyzeClicked *)
    unfold clickAnalyze.
    destruct ((length (risks st) =? 0) && negb (loading st)); [|exact Inv].
    destruct (requestAnalysis_risks contract nowId nowStamp clock st response)
      as [W U].
    now apply all_unresolved_invariant.
  - (* PartClicked *)
    unfold clickPart.
    destruct (nth_error (renderDocumentContent st) idx) as [part|] eqn:N;
      [|exact Inv].
    destruct (attributed part) eqn:A; [|exact Inv].
    apply nth_error_In in N.
    destruct (attributed_part_is_span st part N A) as (r & Hr & Hun & ->).
    simpl. now apply select_unresolved_invariant.
  - (* NavigateClicked *)
    unfold clickNavigate. destruct (selectedRisk st) as [shown|];
      [|exact Inv].
    destruct (navigateRisk_cases st direction) as [E|(r & Hr & E)];
      rewrite E; [exact Inv|].
    apply filter_unresolved_In in Hr.
    now apply select_unresolved_invariant.
  - (* AcceptClicked *)
    unfold clickAccept. destruct (selectedRisk st) as [r|]; [|exact Inv].
    rewrite handleAcceptRisk_eq.
    apply closed_drawer_invariant; [|reflexivity].
    simpl. apply resolve_wellFormed, Inv.
  - (* IgnoreClicked *)
    unfold clickIgnore. destruct (selectedRisk st) as [r|]; [|exact Inv].
    apply closed_drawer_invariant; [|reflexivity].
    simpl. apply resolve_wellFormed, Inv.
  - (* CloseClicked *)
    unfold clickClose. destruct (selectedRisk st); [|exact Inv].
    apply closed_drawer_invariant; [apply Inv | reflexivity].
  - (* ResetClicked *)
    unfold clickReset. destruct (0 <? length (risks st)); [|exact Inv].
    apply all_unresolved_invariant; simpl; [split|]; constructor.
Qed.

Lemma run_invariant events : forall st,
  Forall eventOk events -> screenInvariant st ->
  screenInvariant (run st events).
Proof.
  induction events as [|e events IH]; intros st Hok Inv; [exact Inv|].
  inversion Hok; subst. simpl. apply IH; [assumption|].
  now apply step_invariant.
Qed.

End ScreenFacts.

(** X1: from the mount on, through any sequence of events of the screen
    (loading a saved session, the summary arriving, analysing, clicking a
    highlighted fragment, navigating, accepting, ignoring, closing the
    drawer, restarting), the ids of the findings stay distinct and
    non-empty and the finding shown in the drawer is unresolved: the
    accept and ignore buttons never act on a finding already handled. *)
Theorem screen_keeps_drawer_on_unresolved (contract : ContractData)
  (initialSession : option ReviewSession) (events : list Event) :
  eventOk (Load contract initialSession) ->
  Forall eventOk events ->
  screenInvariant (run (mount contract initialSession) events).
Proof.
  intros H0 Hev. apply run_invariant; [exact Hev|].
  unfold mount.
  apply (@step_invariant (initialState contract)
           (Load contract initialSession) H0).
  apply closed_drawer_invariant; [split; constructor | reflexivity].
Qed.

Lemma screen_invariant_witness :
  screenInvariant
    (run (mount (mkContract feeDoc) None)
         [AnalyzeClicked (mkContract feeDoc) 1 2 clock0
            (Parsed [mkRaw (lit "$100") (lit "$200") HIGH]);
          PartClicked 3; AcceptClicked; NavigateClicked next]).
Proof.
  apply screen_keeps_drawer_on_unresolved.
  - exact I.
  - repeat constructor.
Defined.

(** X10: with distinct ids, a click on a highlighted fragment opens the
    drawer on the unresolved finding the fragment is the span of, and
    that finding's original text occurs in the document: accepting it
    then finds text to replace. *)
Theorem clicked_highlight_is_replaceable (st : State) (idx : nat)
  (part : Part) :
  NoDup (map id (risks st)) ->
  nth_error (renderDocumentContent st) idx = Some part ->
  attributed part = true ->
  exists r,
    selectedRisk (clickPart st idx) = Some r /\
    In r (risks st) /\ isAddressed r = false /\ part = span r /\
    occursIn (originalText r) (currentText (clickPart st idx)).
Proof.
  intros Hnd N A. pose proof (nth_error_In _ _ N) as Hin.
  destruct (attributed_part_is_span st part Hin A) as (r & Hr & Hun & ->).
  exists r. unfold clickPart. rewrite N, A. simpl.
  split; [|repeat split; auto].
  - unfold selectedRisk. simpl. now apply find_selected_unique.
  - rewrite <- (render_text_of_state st).
    now apply (In_renderedText (span r)).
Qed.

Lemma clicked_highlight_witness :
  exists r, selectedRisk (clickPart feeSession 3) = Some r /\
            occursIn (originalText r) feeDoc.
Proof.
  assert (Hnd : NoDup (map id (risks feeSession))).
  { vm_compute. repeat constructor. intros []. }
  destruct (@clicked_highlight_is_replaceable feeSession 3 (span findingA)
              Hnd eq_refl eq_refl) as (r & Hsel & _ & _ & _ & Hocc).
  exists r. split; [exact Hsel | exact Hocc].
Defined.

(* ===================================================================== *)
(** ** Saving and restoring a session *)
(* ===================================================================== *)




(* ===================================================================== *)
(** ** The summary prompt and the drafting component *)
(* ===================================================================== *)

(** X12: the summary request carries at most the first 10000 code units of
    the document: the prompt's length is bounded whatever the document,
    a document of at most 10000 code units is sent whole, and what
    follows the first 10000 code units has no influence on the prompt. *)
Theorem summary_prompt_truncates (text more : str) :
  length (summaryPrompt text) <= 10000 + 126 /\
  (length text <= 10000 ->
   summaryPrompt text = summaryPromptHead ++ text ++ summaryPromptTail) /\
  (length text = 10000 ->
   summaryPrompt (text ++ more) = summaryPrompt text).
Proof.
  unfold summaryPrompt. split; [|split].
  - rewrite !length_app.
    pose proof (firstn_le_length 10000 text) as B.
    change (length summaryPromptHead) with 119.
    change (length summaryPromptTail) with 7. lia.
  - intros H. now rewrite firstn_all2.
  - intros H. rewrite firstn_app, H, Nat.sub_diag.
    rewrite <- H at 1. rewrite firstn_all, firstn_O, app_nil_r.
    rewrite <- H. now rewrite firstn_all.
Qed.

Lemma summary_prompt_witness :
  summaryPrompt feeDoc = summaryPromptHead ++ feeDoc ++ summaryPromptTail.
Proof.
  apply (proj1 (proj2 (summary_prompt_truncates feeDoc []))).
  apply Nat.leb_le. vm_compute. reflexivity.
Defined.

(** X13: a draft request always ends with a text to show: the answer when
    it is not empty, "Drafting failed." when the answer has no text or an
    empty one, "Error drafting contract." when the call fails; the
    loading flag is cleared, and the type and the requirements typed by
    the user are kept.  While the requirements are empty the button does
    nothing. *)
Theorem draft_always_shows_text (st : DraftState)
  (response : DraftResponse) :
  let st' := handleDraft st response in
  result st' <> [] /\ showsDraft st' = true /\
  draftLoading st' = false /\
  draftType st' = draftType st /\ requirements st' = requirements st /\
  (forall t, response = DraftAnswered (Some t) -> t <> [] -> result st' = t) /\
  (response = DraftAnswered None \/ response = DraftAnswered (Some []) ->
   result st' = lit "Drafting failed.") /\
  (response = DraftRejected -> result st' = lit "Error drafting contract.") /\
  (requirements st = [] -> clickDraft st response = st).
Proof.
  simpl. unfold showsDraft. simpl.
  assert (N : draftNewContract response <> []).
  { destruct response as [|[[|c t]|]]; discriminate. }
  split; [exact N|]. split.
  { destruct (draftNewContract response); [now destruct N | reflexivity]. }
  repeat split.
  - intros t -> Ht. destruct t; [now destruct Ht | reflexivity].
  - intros [-> | ->]; reflexivity.
  - now intros ->.
  - intros H. unfold clickDraft. rewrite H. simpl.
    now rewrite orb_true_r.
Qed.

(* ===================================================================== *)
(** ** More on accepting, ignoring and analysing *)
(* ===================================================================== *)

(** X14: accepting a finding changes the document at the first occurrence
    of its original text only: the text before it and the text after it
    are kept as they are, whatever the suggested text holds; what is put
    in between is the suggested text itself when it holds no dollar
    sign. *)
Theorem accept_changes_first_occurrence_only (st : State)
  (risk : RiskPoint) (before after : str) :
  currentText st = before ++ originalText risk ++ after ->
  (forall j, j < length before ->
     startsWith (originalText risk) (skipn j (currentText st)) = false) ->
  exists inserted,
    currentText (handleAcceptRisk st risk) = before ++ inserted ++ after /\
    inserted = getSubstitution (originalText risk) before after
                               (suggestedText risk) /\
    (~ In "$"%char (suggestedText risk) -> inserted = suggestedText risk).
Proof.
  intros E Hfirst.
  exists (getSubstitution (originalText risk) before after
                          (suggestedText risk)).
  split; [|split; [reflexivity|apply getSubstitution_no_dollar]].
  rewrite handleAcceptRisk_eq. simpl. rewrite E in *.
  now apply replace_first_occurrence.
Qed.

Lemma accept_first_occurrence_witness :
  exists inserted,
    currentText (handleAcceptRisk feeSession findingA)
    = lit "Fee: " ++ inserted ++ lit ". Late fee: $100.".
Proof.
  destruct (@accept_changes_first_occurrence_only feeSession findingA
              (lit "Fee: ") (lit ". Late fee: $100.") eq_refl)
    as (inserted & H & _).
  - intros j Hj.
    do 5 (destruct j as [|j]; [reflexivity|]). simpl in Hj. lia.
  - now exists inserted.
Defined.

(** X15: ignoring an id that no finding of the list has leaves the
    document text and the findings as they are; only the selection is
    cleared. *)
Theorem ignore_unknown_id_only_closes (st : State) (unknown : str) :
  ~ In unknown (map id (risks st)) ->
  handleIgnoreRisk st unknown = setSelectedRiskId None st.
Proof.
  intros H. unfold handleIgnoreRisk. rewrite resolve_other_id by exact H.
  now destruct st.
Qed.

Lemma ignore_unknown_id_witness :
  handleIgnoreRisk feeSession (lit "risk-9-0")
  = setSelectedRiskId None feeSession.
Proof.
  apply ignore_unknown_id_only_closes.
  intros [H|[]]. vm_compute in H. discriminate.
Defined.

(** X16: accept and ignore calls never add, remove, reorder or rewrite
    findings: along every sequence of calls the ids, the original and
    suggested texts, the descriptions, the reasons and the levels of the
    list stay what they were. *)
Theorem resolutions_keep_findings (st : State) (acts : list Resolution) :
  let st' := applyResolutions st acts in
  map id (risks st') = map id (risks st) /\
  map originalText (risks st') = map originalText (risks st) /\
  map suggestedText (risks st') = map suggestedText (risks st) /\
  map riskDescription (risks st') = map riskDescription (risks st) /\
  map reason (risks st') = map reason (risks st) /\
  map level (risks st') = map level (risks st).
Proof.
  simpl. pose proof (applyResolutions_flagRaised acts st) as F.
  assert (K : forall B (f : RiskPoint -> B),
            (forall r, f (markAddressed r) = f r) ->
            map f (risks (applyResolutions st acts)) = map f (risks st)).
  { intros B f Hf. induction F as [|r r' rs rs' [->| ->] _ IH]; simpl;
      [reflexivity | now rewrite IH | now rewrite IH, Hf]. }
  repeat split; apply K; reflexivity.
Qed.

(** X17: the analyse button acts only on a session without findings that
    is not loading.  When the analyzer call then fails, the session
    state is exactly what it was, no alert is raised, and a session
    without findings is saved under the current text. *)
Theorem failed_analysis_from_button (contract : ContractData)
  (nowId nowStamp : Z) (clock : nat -> Z) (st : State)
  (response : AnalyzerResponse) :
  (risks st <> [] \/ loading st = true ->
   clickAnalyze contract nowId nowStamp clock response st = st) /\
  (risks st = [] -> loading st = false -> loadingStep st = NoStep ->
   response = CallRejected \/ response = Unparsable ->
   let out := requestAnalysis contract nowId nowStamp clock st response in
   clickAnalyze contract nowId nowStamp clock response st = st /\
   fst out = st /\
   ~ In AlertAnalysisFailed (snd out) /\
   exists s, In (SaveSession s) (snd out) /\ session_risks s = [] /\
             content (session_contract s) = currentText st).
Proof.
  split.
  - intros H. unfold clickAnalyze.
    destruct H as [H|H].
    + destruct (risks st); [now destruct H | reflexivity].
    + rewrite H. now rewrite andb_false_r.
  - intros Hr Hl Hs Hresp.
    assert (E : fst (requestAnalysis contract nowId nowStamp clock st
                                     response) = st).
    { destruct st; simpl in *. subst.
      now destruct Hresp as [-> | ->]. }
    cbv zeta. split; [|split; [exact E|split]].
    + unfold clickAnalyze. rewrite Hr, Hl. exact E.
    + destruct Hresp as [-> | ->]; simpl;
        intros [F|[F|[]]]; discriminate.
    + destruct Hresp as [-> | ->]; simpl; eexists;
        (split; [right; left; reflexivity | split; reflexivity]).
Qed.

Lemma failed_analysis_from_button_witness :
  clickAnalyze (mkContract feeDoc) 1 2 clock0 CallRejected
               (mount (mkContract feeDoc) None)
  = mount (mkContract feeDoc) None.
Proof.
  destruct (@failed_analysis_from_button (mkContract feeDoc) 1 2 clock0
              (mount (mkContract feeDoc) None) CallRejected) as [_ H].
  destruct (H eq_refl eq_refl eq_refl (or_introl eq_refl)) as [H1 _].
  exact H1.
Defined.
